(** * ttlmap: a time-to-live map with a background pruning goroutine

    Shallow embedding of [ttlmap.go] (version 0.1.1) and of the retained
    version 0.1.0.

    The Go program keeps a [map[K]*item[V]] behind a [sync.RWMutex]; a
    goroutine created by [New] receives from a ticker and deletes the
    entries whose [expires] stamp has passed.  The embedding keeps the
    objects the program allocates in an explicit store (items behind
    pointers, map objects behind references), threads the store through
    a small outcome monad, and treats each public method, which runs
    under the lock from its first to its last statement, as one atomic
    transition of the system.

    The key type is any type that satisfies [comparable].  Go's maps
    treat three kinds of key differently, and the embedding keeps the
    three apart: a key that is equal to itself and can be hashed, a key
    that is not equal to itself (a floating-point NaN, alone or inside
    a struct, array or interface), and an interface key whose dynamic
    type cannot be hashed. *)

From stdpp Require Import gmap strings list fin_maps.

Local Open Scope Z_scope.

(** ** Machine integers *)

(** [int64] values are integers in the two's complement range; arithmetic
    on them wraps around. *)
Definition int64_min : Z := - 2 ^ 63.
Definition int64_max : Z := 2 ^ 63 - 1.

Definition int64_range (z : Z) : Prop := int64_min <= z <= int64_max.

Definition wrap64 (z : Z) : Z := (z + 2 ^ 63) mod 2 ^ 64 - 2 ^ 63.

(** [time.Now().Add(ttl).UnixNano()]: [Time.Add] is exact on the
    seconds/nanoseconds pair of a [Time]; [UnixNano] then computes
    [sec * 1e9 + nsec] in [int64].  [now] is the reading of the clock in
    nanoseconds since the epoch. *)
Definition add_unix_nano (now ttl : Z) : Z := wrap64 (now + ttl).

(** ** Keys *)

(** What a Go map does with a key depends on the key's kind.
    - [Usable]: the key can be hashed and [k == k] holds; the map finds,
      replaces and deletes the entry stored under it.
    - [Irreflexive]: the key can be hashed but [k == k] is false (NaN).
      An assignment [m[k] = v] adds one more entry every time, an index
      expression [m[k]] never finds one, and [delete(m, k)] does
      nothing; [range], [len] and [clear] still see the entries.
    - [Unhashable]: an interface value whose dynamic type is not
      comparable; indexing, assigning and deleting panic. *)
Inductive key_kind := Usable | Irreflexive | Unhashable.

Global Instance key_kind_eq_dec : EqDecision key_kind.
Proof. solve_decision. Defined.

(** [type Key interface { comparable }].  The elements of [K] are the
    values of the key type, two values that Go's [==] equates being the
    same element. *)
Class Key (K : Type) `{Countable K} := { key_class : K → key_kind }.

(** ** Runtime objects *)

Definition ptr := positive.

(** [sync.RWMutex], seen from one goroutine at a time. *)
Inductive rwmutex :=
  | Unlocked
  | WLocked
  | RLocked (readers : nat). (* [S readers] readers hold the lock *)

(** The prune goroutine created by [New]. *)
Inductive goroutine :=
  | Spawned (pruneInterval : Z) (* created by [go], first statement not yet run *)
  | Running                     (* waiting in [select] *)
  | Stopped.                    (* returned after receiving from [stop] *)

(** The [time.Ticker] owned by the prune goroutine. *)
Inductive ticker_state :=
  | NoTicker
  | TickerActive (d : Z)
  | TickerStopped.

(** A map object [map[K]*item]: the entries under usable keys, at most
    one for a key, and the entries under keys that are not equal to
    themselves, any number for a key. *)
Record gomap (K : Type) `{Countable K} := GoMap {
  keyed : gmap K ptr;
  loose : list (K * ptr)
}.
Global Arguments GoMap {K _ _} keyed loose.
Global Arguments keyed {K _ _} g.
Global Arguments loose {K _ _} g.

Section Runtime.
(** [K] is the key type of the map, [item] the struct its values point
    to (the two versions of the package declare different ones). *)
Context `{Countable K, !Key K} {item : Type}.

(** The store: the items allocated with [&item{...}], the map objects
    allocated with [make], and the fields of the one [TtlMap] the
    development follows. *)
Record State := MkState {
  items : gmap ptr item;
  maps : gmap ptr (gomap K);
  entries : ptr;      (* m.entries, a reference to a map object *)
  ttl : Z;            (* the time-to-live the map was created with *)
  lock : rwmutex;     (* m.lock *)
  sweeper : goroutine;(* the goroutine at the other end of m.stop *)
  ticker : ticker_state
}.

(** ** Outcomes *)

(** A call returns a result and a new store, stops the program with a
    panic or a fatal runtime error, or blocks forever. *)
Inductive outcome (A : Type) :=
  | Ok (a : A) (s : State)
  | Fault (msg : string)
  | Blocked.
Global Arguments Ok {A} a s.
Global Arguments Fault {A} msg.
Global Arguments Blocked {A}.

Definition M (A : Type) := State → outcome A.

Definition ret {A} (a : A) : M A := λ s, Ok a s.

Definition bind {A B} (m : M A) (k : A → M B) : M B :=
  λ s, match m s with
       | Ok a s' => k a s'
       | Fault msg => Fault msg
       | Blocked => Blocked
       end.

Definition panic {A} (msg : string) : M A := λ _, Fault msg.

(** What a call returned, if it did. *)
Definition returned {A} (o : outcome A) : option A :=
  match o with
  | Ok a _ => Some a
  | _ => None
  end.

Definition get_state : M State := λ s, Ok s s.

Definition get_entries : M ptr := λ s, Ok (entries s) s.
Definition get_ttl : M Z := λ s, Ok (ttl s) s.

Notation "x <- m ;; k" := (bind m (λ x, k))
  (at level 100, m at next level, right associativity).
Notation "m ;;; k" := (bind m (λ _, k))
  (at level 100, right associativity).

(** [defer d] followed by [body]: the deferred call runs when the body
    has returned. *)
Definition defer {A} (d : M unit) (body : M A) : M A :=
  a <- body ;; d ;;; ret a.

(** ** sync.RWMutex *)

Definition set_lock (l : rwmutex) (s : State) : State :=
  MkState (items s) (maps s) (entries s) (ttl s) l (sweeper s) (ticker s).

Definition Lock : M unit := λ s,
  match lock s with
  | Unlocked => Ok tt (set_lock WLocked s)
  | _ => Blocked
  end.

Definition Unlock : M unit := λ s,
  match lock s with
  | WLocked => Ok tt (set_lock Unlocked s)
  | _ => Fault "sync: Unlock of unlocked RWMutex"
  end.

Definition RLock : M unit := λ s,
  match lock s with
  | Unlocked => Ok tt (set_lock (RLocked 0) s)
  | RLocked n => Ok tt (set_lock (RLocked (S n)) s)
  | WLocked => Blocked
  end.

Definition RUnlock : M unit := λ s,
  match lock s with
  | RLocked 0 => Ok tt (set_lock Unlocked s)
  | RLocked (S n) => Ok tt (set_lock (RLocked n) s)
  | _ => Fault "sync: RUnlock of unlocked RWMutex"
  end.

(** ** Pointers and map objects *)

Definition set_items (h : gmap ptr item) (s : State) : State :=
  MkState h (maps s) (entries s) (ttl s) (lock s) (sweeper s) (ticker s).

Definition set_maps (ms : gmap ptr (gomap K)) (s : State) : State :=
  MkState (items s) ms (entries s) (ttl s) (lock s) (sweeper s) (ticker s).

(** [&item{...}] *)
Definition new_item (it : item) : M ptr := λ s,
  let p := fresh (dom (items s)) in
  Ok p (set_items (<[p := it]> (items s)) s).

(** [p.value], [p.expires]: a load through the pointer *)
Definition load (p : ptr) : M item := λ s,
  match items s !! p with
  | Some it => Ok it s
  | None => Fault "invalid memory address or nil pointer dereference"
  end.

(** [*p = it] *)
Definition store (p : ptr) (it : item) : M unit := λ s,
  match items s !! p with
  | Some _ => Ok tt (set_items (<[p := it]> (items s)) s)
  | None => Fault "invalid memory address or nil pointer dereference"
  end.

Definition empty_map : gomap K := GoMap ∅ [].

(** The contents of the map object behind [r]; a reference that was
    never allocated behaves as the nil map. *)
Definition map_of (r : ptr) (s : State) : gomap K :=
  default empty_map (maps s !! r).

(** [make(map[K]*item[V], n)] *)
Definition make_map : M ptr := λ s,
  let r := fresh (dom (maps s)) in
  Ok r (set_maps (<[r := empty_map]> (maps s)) s).

Definition unhashable {A} : outcome A :=
  Fault "runtime error: hash of unhashable type".

(** [v, ok := r[k]] *)
Definition map_index (r : ptr) (k : K) : M (option ptr) := λ s,
  match key_class k with
  | Usable => Ok (keyed (map_of r s) !! k) s
  | Irreflexive => Ok None s
  | Unhashable => unhashable
  end.

(** [r[k] = p] *)
Definition map_assign (r : ptr) (k : K) (p : ptr) : M unit := λ s,
  match maps s !! r with
  | Some m =>
      match key_class k with
      | Usable =>
          Ok tt (set_maps (<[r := GoMap (<[k := p]> (keyed m)) (loose m)]>
                             (maps s)) s)
      | Irreflexive =>
          Ok tt (set_maps (<[r := GoMap (keyed m) (loose m ++ [(k, p)])]>
                             (maps s)) s)
      | Unhashable => unhashable
      end
  | None => Fault "assignment to entry in nil map"
  end.

(** [delete(r, k)] *)
Definition map_delete (r : ptr) (k : K) : M unit := λ s,
  match key_class k with
  | Usable =>
      match maps s !! r with
      | Some m =>
          Ok tt (set_maps (<[r := GoMap (delete k (keyed m)) (loose m)]>
                             (maps s)) s)
      | None => Ok tt s
      end
  | Irreflexive => Ok tt s
  | Unhashable => unhashable
  end.

(** [clear(r)] *)
Definition map_clear (r : ptr) : M unit := λ s,
  match maps s !! r with
  | Some m => Ok tt (set_maps (<[r := empty_map]> (maps s)) s)
  | None => Ok tt s
  end.

(** [len(r)] *)
Definition map_len (r : ptr) : M nat := λ s,
  Ok (size (keyed (map_of r s)) + length (loose (map_of r s)))%nat s.

(** [for k, v := range r { body }], visiting the entries in the order
    [order], each given as it was when the loop started.  An entry that
    is no longer in the map when its turn comes is not produced; an
    entry under a usable key is produced with the value it has then. *)
Fixpoint for_range (r : ptr) (order : list (K * ptr))
    (body : K → ptr → M unit) : M unit :=
  match order with
  | [] => ret tt
  | (k, p) :: rest =>
      (λ s,
        match key_class k with
        | Usable =>
            match keyed (map_of r s) !! k with
            | Some v => body k v s
            | None => Ok tt s
            end
        | _ =>
            if bool_decide ((k, p) ∈ loose (map_of r s)) then body k p s
            else Ok tt s
        end) ;;;
      for_range r rest body
  end.

(** An order in which [range] may visit the map behind [r]: Go leaves
    it unspecified; the executable model takes the one of
    [map_to_list], then the entries under irreflexive keys. *)
Definition range_order (r : ptr) (s : State) : list (K * ptr) :=
  map_to_list (keyed (map_of r s)) ++ loose (map_of r s).

Definition range (r : ptr) (body : K → ptr → M unit) : M unit :=
  s <- get_state ;; for_range r (range_order r s) body.

End Runtime.

Global Arguments State K {_ _} item.
Global Arguments outcome K {_ _} item A.
Global Arguments M K {_ _} item A.

Notation "x <- m ;; k" := (bind m (λ x, k))
  (at level 100, m at next level, right associativity).
Notation "m ;;; k" := (bind m (λ _, k))
  (at level 100, right associativity).

(** ** Version 0.1.1 ([ttlmap.go]) *)

(** item is an entry in a TtlMap. *)
Record item (V : Type) := Item {
  value : V;
  expires : Z (* the nanos UNIX timestamp when the item expires *)
}.
Global Arguments Item {V} value expires.
Global Arguments value {V} i.
Global Arguments expires {V} i.

Section V011.
Context `{Countable K, !Key K} {V : Type}.
(** The zero value of [V] (what [var value V] holds). *)
Variable zero : V.

Local Abbreviation St := (State K (item V)).
Local Abbreviation Act := (M K (item V)).

(** *** The prune goroutine *)

(** [ticker := time.NewTicker(pruneInterval); defer ticker.Stop()].
    [time.NewTicker] panics when its argument is not positive. *)
Definition sweeper_start : Act unit := λ s,
  match sweeper s with
  | Spawned d =>
      if decide (d <= 0) then Fault "non-positive interval for NewTicker"
      else Ok tt (MkState (items s) (maps s) (entries s) (ttl s) (lock s)
                    Running (TickerActive d))
  | _ => Ok tt s
  end.

(** [case <-stop: return], and the deferred [ticker.Stop()]. *)
Definition sweeper_return : Act unit := λ s,
  Ok tt (MkState (items s) (maps s) (entries s) (ttl s) (lock s)
           Stopped TickerStopped).

(** The body of [case now := <-ticker.C], with [currentTime] the value
    of [now.UnixNano()], the entries visited in the order [order]. *)
Definition sweep_in (order : list (K * ptr)) (currentTime : Z) : Act unit :=
  Lock ;;;
  r <- get_entries ;;
  for_range r order (λ k v,
    it <- load v ;;
    if decide (currentTime >= expires it) then map_delete r k
    else ret tt) ;;;
  Unlock.

Definition sweep (currentTime : Z) : Act unit :=
  s <- get_state ;; sweep_in (range_order (entries s) s) currentTime.

(** One tick of the ticker.  Only a goroutine that waits in [select]
    with its ticker running receives it. *)
Definition tick (now : Z) : Act unit := λ s,
  match sweeper s with
  | Running => sweep now s
  | _ => Ok tt s
  end.

(** *** The methods *)

(** [New] allocates the map object and creates the goroutine; the
    goroutine's statements run when it is scheduled ([sweeper_start]). *)
Definition New (capacity : nat) (ttl pruneInterval : Z)
    : outcome K (item V) unit :=
  Ok tt (MkState ∅ {[ 1%positive := empty_map ]} 1%positive ttl Unlocked
           (Spawned pruneInterval) NoTicker).

Definition Len : Act nat :=
  RLock ;;;
  r <- get_entries ;;
  size <- map_len r ;;
  defer RUnlock (ret size).

Definition Put (key : K) (value : V) (now : Z) : Act unit :=
  Lock ;;;
  defer Unlock (
    t <- get_ttl ;;
    p <- new_item (Item value (add_unix_nano now t)) ;;
    r <- get_entries ;;
    map_assign r key p).

Definition Get (key : K) : Act (V * bool) :=
  RLock ;;;
  defer RUnlock (
    r <- get_entries ;;
    o <- map_index r key ;;
    match o with
    | Some p => it <- load p ;; ret (value it, true)
    | None => ret (zero, false)
    end).

Definition GetOrZero (key : K) : Act V :=
  RLock ;;;
  defer RUnlock (
    r <- get_entries ;;
    o <- map_index r key ;;
    match o with
    | Some p => it <- load p ;; ret (value it)
    | None => ret zero
    end).

Definition Delete (key : K) : Act bool :=
  Lock ;;;
  defer Unlock (
    r <- get_entries ;;
    o <- map_index r key ;;
    match o with
    | None => ret false
    | Some _ => map_delete r key ;;; ret true
    end).

Definition Clear : Act unit :=
  Lock ;;;
  defer Unlock (r <- get_entries ;; map_clear r).

(** [maps.Copy(dst, src)] is [for k, v := range src { dst[k] = v }]. *)
Definition maps_Copy (dst src : ptr) : Act unit :=
  range src (λ k v, map_assign dst k v).

Definition Copy : Act ptr :=
  Lock ;;;
  defer Unlock (
    r <- get_entries ;;
    dst <- make_map ;;
    maps_Copy dst r ;;;
    ret dst).

(** [m.stop <- struct{}{}]: the channel has no buffer, so the send
    completes when the goroutine receives in its [select], which a
    goroutine that has not started yet first has to reach.  Nobody
    receives once the goroutine has returned. *)
Definition send_stop : Act unit := λ s,
  match sweeper s with
  | Spawned _ => (sweeper_start ;;; sweeper_return) s
  | Running => sweeper_return s
  | Stopped => Blocked
  end.

Definition Close : Act unit :=
  send_stop ;;; Clear.

(** *** The system as a transition system *)

(** What can happen to a map after [New]: a call of a method (each
    holds the lock for its whole body), the goroutine being scheduled
    for the first time, or a tick.  [now] is the clock reading the
    method or the ticker takes. *)
Inductive event :=
  | EPut (key : K) (value : V) (now : Z)
  | EGet (key : K)
  | EGetOrZero (key : K)
  | EDelete (key : K)
  | EClear
  | ELen
  | ECopy
  | EClose
  | EStart
  | ETick (now : Z).

Definition step (e : event) : Act unit :=
  match e with
  | EPut key value now => Put key value now
  | EGet key => Get key ;;; ret tt
  | EGetOrZero key => GetOrZero key ;;; ret tt
  | EDelete key => Delete key ;;; ret tt
  | EClear => Clear
  | ELen => Len ;;; ret tt
  | ECopy => Copy ;;; ret tt
  | EClose => Close
  | EStart => sweeper_start
  | ETick now => tick now
  end.

Fixpoint run (es : list event) : Act unit :=
  match es with
  | [] => ret tt
  | e :: rest => step e ;;; run rest
  end.

(** The clock reading of the last [Put] of [key] in a history, the
    latest event last. *)
Fixpoint last_put (key : K) (es : list event) : option Z :=
  match es with
  | [] => None
  | e :: rest =>
      match last_put key rest with
      | Some t => Some t
      | None =>
          match e with
          | EPut k _ now => if decide (k = key) then Some now else None
          | _ => None
          end
      end
  end.

(** A program that creates the map and lets the events [es] happen;
    [reachable] are the states such programs can be in. *)
Definition run_new (capacity : nat) (ttl pruneInterval : Z)
    (es : list event) : outcome K (item V) unit :=
  match New capacity ttl pruneInterval with
  | Ok _ s0 => run es s0
  | Fault msg => Fault msg
  | Blocked => Blocked
  end.

Definition reachable (s : St) : Prop :=
  ∃ capacity ttl pruneInterval es,
    run_new capacity ttl pruneInterval es = Ok tt s.

(** The key an event hashes, if it has one, can be hashed. *)
Definition hashable (e : event) : Prop :=
  match e with
  | EPut k _ _ | EGet k | EGetOrZero k | EDelete k =>
      key_class k ≠ Unhashable
  | _ => True
  end.

(** *** What a caller can do with the map [Copy] returned *)

(** The caller holds the reference [snap] to the map object [Copy]
    made.  It can change that map, and it can write through the item
    pointers the map holds ([snap[k].value = v] inside the package,
    [*snap[k] = *snap[k']] anywhere). *)
Inductive mutation :=
  | MutAssign (k : K) (p : ptr)      (* snap[k] = p *)
  | MutDelete (k : K)                (* delete(snap, k) *)
  | MutClear                         (* clear(snap) *)
  | MutStore (k : K) (it : item V).  (* *snap[k] = it *)

Definition mutate (snap : ptr) (mu : mutation) : Act unit :=
  match mu with
  | MutAssign k p => map_assign snap k p
  | MutDelete k => map_delete snap k
  | MutClear => map_clear snap
  | MutStore k it =>
      o <- map_index snap k ;;
      match o with
      | Some p => store p it
      | None => panic "invalid memory address or nil pointer dereference"
      end
  end.

Fixpoint mutate_all (snap : ptr) (mus : list mutation) : Act unit :=
  match mus with
  | [] => ret tt
  | mu :: rest => mutate snap mu ;;; mutate_all snap rest
  end.

(** A mutation of the map object itself, as opposed to a write through
    a pointer found in it. *)
Definition map_level (mu : mutation) : bool :=
  match mu with
  | MutStore _ _ => false
  | _ => true
  end.

(** The key of a mutation, if it has one, can be hashed. *)
Definition hashable_mutation (mu : mutation) : Prop :=
  match mu with
  | MutAssign k _ | MutDelete k | MutStore k _ => key_class k ≠ Unhashable
  | MutClear => True
  end.

(** *** The table a reader sees *)

(** The entries of a map object with the items behind their pointers:
    those under usable keys, which an index expression can reach, and
    those under irreflexive keys, which only [range], [len] and [clear]
    reach. *)
Definition table_of (r : ptr) (s : St) : gmap K (item V) :=
  omap (λ p, items s !! p) (keyed (map_of r s)).

Definition loose_of (r : ptr) (s : St) : list (K * item V) :=
  omap (λ kp, (λ it, (kp.1, it)) <$> items s !! kp.2) (loose (map_of r s)).

(** The same for the live map. *)
Definition table (s : St) : gmap K (item V) := table_of (entries s) s.

Definition loose_table (s : St) : list (K * item V) :=
  loose_of (entries s) s.

(** All the entries physically in the live map. *)
Definition physical (s : St) : list (K * item V) :=
  map_to_list (table s) ++ loose_table s.

(** A map object of the program: the keys indexed are usable, the
    others are irreflexive, and every pointer points to an item. *)
Definition map_ok (m : gomap K) (its : gmap ptr (item V)) : Prop :=
  (∀ k p, keyed m !! k = Some p →
          key_class k = Usable ∧ is_Some (its !! p)) ∧
  (∀ k p, (k, p) ∈ loose m →
          key_class k = Irreflexive ∧ is_Some (its !! p)).

(** The states between two events: nobody holds the lock, and the live
    map object exists and is a map object of the program. *)
Definition wf (s : St) : Prop :=
  lock s = Unlocked ∧
  is_Some (maps s !! entries s) ∧
  map_ok (map_of (entries s) s) (items s).

(** What an event does to the table: the store with its pointers
    refines a finite map from usable keys to items and a list of
    entries under irreflexive keys. *)
Definition table_after (e : event) (s : St) : gmap K (item V) :=
  match e with
  | EPut key v now =>
      match key_class key with
      | Usable => <[key := Item v (add_unix_nano now (ttl s))]> (table s)
      | _ => table s
      end
  | EDelete key =>
      match key_class key with
      | Usable => delete key (table s)
      | _ => table s
      end
  | EClear | EClose => ∅
  | ETick now =>
      match sweeper s with
      | Running => filter (λ kv, now < expires kv.2) (table s)
      | _ => table s
      end
  | _ => table s
  end.

Definition loose_after (e : event) (s : St) : list (K * item V) :=
  match e with
  | EPut key v now =>
      match key_class key with
      | Irreflexive =>
          loose_table s ++ [(key, Item v (add_unix_nano now (ttl s)))]
      | _ => loose_table s
      end
  | EClear | EClose => []
  | _ => loose_table s
  end.

(** The fields no method writes after [New], and the goroutine. *)
Definition same_control (s s' : St) : Prop :=
  entries s' = entries s ∧ ttl s' = ttl s ∧
  sweeper s' = sweeper s ∧ ticker s' = ticker s.

(** What the methods and the sweep keep of the store: an item, once
    allocated, keeps its contents, and a map object other than the live
    one keeps its bindings. *)
Definition store_kept (s s' : St) : Prop :=
  (∀ p it, items s !! p = Some it → items s' !! p = Some it) ∧
  (∀ r d, r ≠ entries s → maps s !! r = Some d → maps s' !! r = Some d).

(** A goroutine that can start: if it has not run yet, its interval is
    one [time.NewTicker] accepts. *)
Definition startable (s : St) : Prop :=
  ∀ d, sweeper s = Spawned d → 0 < d.

(** An event that is not a [Put] of [key]. *)
Definition not_put (key : K) (e : event) : Prop :=
  match e with
  | EPut k _ _ => k ≠ key
  | _ => True
  end.

(** An event that does not write or remove [key] and, if it is a tick,
    comes before [deadline]. *)
Definition harmless (key : K) (deadline : Z) (e : event) : Prop :=
  match e with
  | EPut k _ _ | EDelete k => k ≠ key
  | EClear | EClose => False
  | ETick now => now < deadline
  | _ => True
  end.

End V011.

(** ** Version 0.1.0 (the retained earlier file) *)

Module V010.

Record item (V : Type) := Item {
  value : V;
  lastAccess : Z
}.
Global Arguments Item {V} value lastAccess.
Global Arguments value {V} i.
Global Arguments lastAccess {V} i.

Section Methods.
Context `{Countable K, !Key K} {V : Type}.
(** The zero value of [V]. *)
Variable zero : V.

Local Abbreviation St := (State K (item V)).
Local Abbreviation Act := (M K (item V)).

(** [ttl /= 1_000_000_000] is kept by the goroutine's closure; the
    struct of this version has no [ttl] field. *)
Definition New (size : nat) (ttl pruneInterval : Z)
    : outcome K (item V) unit :=
  Ok tt (MkState ∅ {[ 1%positive := empty_map ]} 1%positive
           (ttl `quot` 1000000000) Unlocked
           (Spawned pruneInterval) NoTicker).

Definition Len : Act nat :=
  RLock ;;;
  r <- get_entries ;;
  size <- map_len r ;;
  defer RUnlock (ret size).

(** [now] is [time.Now().Unix()]. *)
Definition Put (key : K) (value : V) (now : Z) : Act unit :=
  Lock ;;;
  defer Unlock (
    p <- new_item (Item value now) ;;
    r <- get_entries ;;
    map_assign r key p).

(** [Get] of this version returns the value alone. *)
Definition Get (key : K) : Act V :=
  RLock ;;;
  defer RUnlock (
    r <- get_entries ;;
    o <- map_index r key ;;
    match o with
    | Some p => it <- load p ;; ret (value it)
    | None => ret zero
    end).

(** The statements of [Delete] after [defer m.lock.Unlock()]. *)
Definition Delete_body (key : K) : Act bool :=
  r <- get_entries ;;
  o <- map_index r key ;;
  match o with
  | None => Unlock ;;; ret false
  | Some _ => map_delete r key ;;; ret true
  end.

Definition Delete (key : K) : Act bool :=
  Lock ;;;
  defer Unlock (Delete_body key).

Definition Clear : Act unit :=
  Lock ;;;
  defer Unlock (r <- get_entries ;; map_clear r).

(** The body of [case now := <-time.Tick(pruneInterval)], with
    [currentTime] the value of [now.Unix()]: the test is
    [currentTime-v.lastAccess >= int64(ttl)], a subtraction in [int64],
    with [ttl] the variable of the closure, divided by [1_000_000_000]
    in [New]. *)
Definition sweep_in (order : list (K * ptr)) (currentTime : Z) : Act unit :=
  Lock ;;;
  r <- get_entries ;;
  t <- get_ttl ;;
  for_range r order (λ k v,
    it <- load v ;;
    if decide (wrap64 (currentTime - lastAccess it) >= t) then map_delete r k
    else ret tt) ;;;
  Unlock.

Definition sweep (currentTime : Z) : Act unit :=
  s <- get_state ;; sweep_in (range_order (entries s) s) currentTime.

(** The goroutine of this version has no statement before its loop: as
    soon as it is created it waits in [select] for [m.stop] or for
    [time.Tick(pruneInterval)].  [time.Tick] returns a nil channel when
    its argument is not positive, and a receive from a nil channel never
    proceeds, so such a goroutine receives no tick. *)
Definition tick (now : Z) : Act unit := λ s,
  match sweeper s with
  | Spawned d => if decide (d <= 0) then Ok tt s else sweep now s
  | _ => Ok tt s
  end.

(** [m.stop <- true], received by [case <-m.stop: return]. *)
Definition send_stop : Act unit := λ s,
  match sweeper s with
  | Spawned _ | Running =>
      Ok tt (MkState (items s) (maps s) (entries s) (ttl s) (lock s)
               Stopped (ticker s))
  | Stopped => Blocked
  end.

Definition Close : Act unit :=
  send_stop ;;; Clear.

(** The entries of the live map with the items behind their pointers,
    and the states between two calls, as for the later version. *)
Definition table (s : St) : gmap K (item V) :=
  omap (λ p, items s !! p) (keyed (map_of (entries s) s)).

Definition loose_table (s : St) : list (K * item V) :=
  omap (λ kp, (λ it, (kp.1, it)) <$> items s !! kp.2)
    (loose (map_of (entries s) s)).

Definition map_ok (m : gomap K) (its : gmap ptr (item V)) : Prop :=
  (∀ k p, keyed m !! k = Some p →
          key_class k = Usable ∧ is_Some (its !! p)) ∧
  (∀ k p, (k, p) ∈ loose m →
          key_class k = Irreflexive ∧ is_Some (its !! p)).

Definition wf (s : St) : Prop :=
  lock s = Unlocked ∧
  is_Some (maps s !! entries s) ∧
  map_ok (map_of (entries s) s) (items s).

End Methods.

End V010.

(** ** Key types of the tests *)

(** String keys, as in most tests: every key is usable. *)
Global Instance string_Key : Key string := {| key_class := λ _, Usable |}.

(** Keys of interface type, [New[any, V]]: a string, a floating-point
    NaN, or a slice of integers, which cannot be hashed. *)
Inductive anykey :=
  | KString (s : string)
  | KNaN
  | KSlice (l : list Z).

Global Instance anykey_eq_dec : EqDecision anykey.
Proof. solve_decision. Defined.

Definition anykey_encode (k : anykey) : string + (unit + list Z) :=
  match k with
  | KString s => inl s
  | KNaN => inr (inl tt)
  | KSlice l => inr (inr l)
  end.

Definition anykey_decode (x : string + (unit + list Z)) : anykey :=
  match x with
  | inl s => KString s
  | inr (inl _) => KNaN
  | inr (inr l) => KSlice l
  end.

Lemma anykey_decode_encode k : anykey_decode (anykey_encode k) = k.
Proof. by destruct k. Qed.

Global Instance anykey_countable : Countable anykey :=
  inj_countable' anykey_encode anykey_decode anykey_decode_encode.

Global Instance anykey_Key : Key anykey := {|
  key_class k :=
    match k with
    | KString _ => Usable
    | KNaN => Irreflexive
    | KSlice _ => Unhashable
    end
|}.

(** ** A run of the tests *)

(** [New(3, 2000, 3000)], two [Put]s at times 0 and 5, and the
    goroutine started. *)
Definition two_puts : list (event (K:=string) (V:=string)) :=
  [EPut "myString" "a b c" 0; EPut "int_array" "1 2 3" 5; EStart].

(** The same with keys of interface type and a third [Put], under NaN. *)
Definition nan_puts : list (event (K:=anykey) (V:=string)) :=
  [EPut (KString "myString") "a b c" 0; EPut KNaN "n" 5; EStart].

(** * Properties *)

(** *** Items behind pointers *)

Section Items.
Context `{Countable K} {item : Type}.

(** The items behind a list of entries whose pointers are all valid. *)
Lemma loose_items_length (its : gmap ptr item) (ls : list (K * ptr)) :
  (∀ k p, (k, p) ∈ ls → is_Some (its !! p)) →
  length (omap (λ kp : K * ptr, (λ it, (kp.1, it)) <$> its !! kp.2) ls)
  = length ls.
Proof.
  induction ls as [|[k p] ls IH]; intros Hv; [done|]. simpl.
  destruct (Hv k p) as [it Hit]; [left|]. rewrite Hit. simpl.
  f_equal. apply IH. intros k' p' Hin. apply (Hv k'). by right.
Qed.

Lemma loose_items_elem (its : gmap ptr item) (ls : list (K * ptr)) k it :
  (k, it) ∈ omap (λ kp : K * ptr, (λ it, (kp.1, it)) <$> its !! kp.2) ls ↔
  ∃ p, (k, p) ∈ ls ∧ its !! p = Some it.
Proof.
  rewrite list_elem_of_omap. split.
  - intros ([k' p] & Hin & Heq). simpl in Heq.
    destruct (its !! p) as [it'|] eqn:E; [|done]. simpl in Heq.
    injection Heq as -> ->. eauto.
  - intros (p & Hin & Hit). exists (k, p). split; [done|]. simpl.
    by rewrite Hit.
Qed.

(** A newly allocated item does not change what is behind the
    pointers a map already holds. *)
Lemma keyed_items_insert_fresh (its : gmap ptr item) (t : gmap K ptr)
    p it :
  its !! p = None →
  (∀ k q, t !! k = Some q → is_Some (its !! q)) →
  omap (λ q, <[p := it]> its !! q) t = omap (λ q, its !! q) t.
Proof.
  intros Hfresh Hv. apply map_eq. intros k. rewrite !lookup_omap.
  destruct (t !! k) as [q|] eqn:E; simpl; [|done].
  destruct (Hv _ _ E) as [it' Hit'].
  rewrite lookup_insert_ne; [done|]. intros ->. congruence.
Qed.

Lemma loose_items_insert_fresh (its : gmap ptr item)
    (ls : list (K * ptr)) p it :
  its !! p = None →
  (∀ k q, (k, q) ∈ ls → is_Some (its !! q)) →
  omap (λ kp : K * ptr, (λ it, (kp.1, it)) <$> <[p := it]> its !! kp.2) ls
  = omap (λ kp : K * ptr, (λ it, (kp.1, it)) <$> its !! kp.2) ls.
Proof.
  intros Hfresh. induction ls as [|[k q] ls IH]; intros Hv; [done|].
  rewrite !(omap_app _ [(k, q)] ls). f_equal.
  - simpl. destruct (Hv k q) as [it' Hit']; [left|].
    rewrite lookup_insert_ne; [done|]. intros ->. congruence.
  - apply IH. intros k' q' Hin. apply (Hv k'). by right.
Qed.

End Items.

Section Facts.
Context `{Countable K, !Key K} {V : Type}.
Variable zero : V.

Local Abbreviation St := (State K (item V)).
Local Abbreviation Act := (M K (item V)).

Implicit Types (s : St) (k key : K) (p r : ptr) (it : item V).

(** *** Arithmetic of the deadline *)

Lemma wrap64_id z : int64_range z → wrap64 z = z.
Proof.
  unfold int64_range, int64_min, int64_max, wrap64. intros Hz.
  rewrite Z.mod_small; lia.
Qed.

Lemma wrap64_range z : int64_range (wrap64 z).
Proof.
  unfold int64_range, int64_min, int64_max, wrap64.
  pose proof (Z.mod_pos_bound (z + 2 ^ 63) (2 ^ 64)). lia.
Qed.

Lemma add_unix_nano_exact now t :
  int64_range (now + t) → add_unix_nano now t = now + t.
Proof. apply wrap64_id. Qed.

Lemma add_unix_nano_overflow now t :
  int64_range now → int64_range t → int64_max < now + t →
  add_unix_nano now t = now + t - 2 ^ 64.
Proof.
  unfold add_unix_nano, wrap64, int64_range, int64_min, int64_max.
  intros Hnow Ht Hover.
  replace (now + t + 2 ^ 63) with ((now + t - 2 ^ 63) + 1 * 2 ^ 64) by lia.
  rewrite Z.mod_add by lia. rewrite Z.mod_small; lia.
Qed.

(** *** The table behind the pointers *)

Lemma table_lookup s k :
  table s !! k = keyed (map_of (entries s) s) !! k ≫= λ p, items s !! p.
Proof. unfold table, table_of. by rewrite lookup_omap. Qed.

Lemma table_lookup_Some s k it :
  wf s → table s !! k = Some it →
  key_class k = Usable ∧
  ∃ p, keyed (map_of (entries s) s) !! k = Some p ∧ items s !! p = Some it.
Proof.
  intros (_ & _ & Hk & _). rewrite table_lookup.
  destruct (keyed (map_of (entries s) s) !! k) as [p|] eqn:E; simpl; [|done].
  destruct (Hk _ _ E). eauto.
Qed.

Lemma table_lookup_None s k :
  wf s → table s !! k = None ↔ keyed (map_of (entries s) s) !! k = None.
Proof.
  intros (_ & _ & Hk & _). rewrite table_lookup.
  destruct (keyed (map_of (entries s) s) !! k) as [p|] eqn:E; simpl; [|done].
  destruct (Hk _ _ E) as [_ [it Hit]]. rewrite Hit. split; done.
Qed.

Lemma table_not_usable s k :
  wf s → key_class k ≠ Usable → table s !! k = None.
Proof.
  intros Hwf Hc. destruct (table s !! k) as [it|] eqn:E; [|done].
  by destruct (table_lookup_Some s k it Hwf E).
Qed.

Lemma table_dom s :
  wf s → dom (table s) = dom (keyed (map_of (entries s) s)).
Proof.
  intros Hwf. apply set_eq. intros k. rewrite !elem_of_dom.
  rewrite <- !not_eq_None_Some. by rewrite table_lookup_None.
Qed.

Lemma table_size s :
  wf s → size (table s) = size (keyed (map_of (entries s) s)).
Proof. intros Hwf. by rewrite <- !size_dom, table_dom. Qed.


Lemma loose_length s :
  wf s →
  length (loose_table s) = length (loose (map_of (entries s) s)).
Proof.
  intros (_ & _ & _ & Hl). apply loose_items_length.
  intros k p Hin. by destruct (Hl k p Hin).
Qed.


Lemma loose_table_elem s k it :
  (k, it) ∈ loose_table s ↔
  ∃ p, (k, p) ∈ loose (map_of (entries s) s) ∧ items s !! p = Some it.
Proof. apply loose_items_elem. Qed.

Lemma loose_table_irreflexive s k it :
  wf s → (k, it) ∈ loose_table s → key_class k = Irreflexive.
Proof.
  intros (_ & _ & _ & Hl) (p & Hin & _)%loose_table_elem.
  by destruct (Hl k p Hin).
Qed.

(** *** The methods, run from a state between two events *)

Ltac run_monad :=
  unfold defer, bind, ret, get_entries, get_ttl, get_state,
    RLock, RUnlock, Lock, Unlock, map_index, map_len, map_delete,
    map_clear, map_assign, new_item, load, set_lock, set_maps, set_items,
    unhashable;
  simpl.

(** Opens a well-formed state into its fields, with the live map
    [GoMap t ls]. *)
Ltac open_wf s Hwf t ls Ht Hk Hl :=
  destruct s as [its ms e ttl0 l sw tk];
  unfold wf, map_ok, table, loose_table, table_of, loose_of, map_of in *;
  simpl in *;
  destruct Hwf as (-> & [[t ls] Ht] & Hk & Hl); rewrite ?Ht in *;
  simpl in *.

Lemma Get_exec s key :
  wf s →
  key_class key ≠ Unhashable →
  Get zero key s =
    Ok (match table s !! key with
        | Some it => (value it, true)
        | None => (zero, false)
        end) s.
Proof.
  intros Hwf Hc. open_wf s Hwf t ls Ht Hk Hl.
  unfold Get. run_monad. unfold map_of. simpl. rewrite Ht. simpl.
  rewrite lookup_omap.
  destruct (key_class key) eqn:Ek; [| |done]; simpl.
  - destruct (t !! key) as [p|] eqn:E; simpl; [|done].
    destruct (Hk _ _ E) as [_ [it Hit]]. by rewrite Hit.
  - destruct (t !! key) as [p|] eqn:E; simpl; [|done].
    destruct (Hk _ _ E). congruence.
Qed.

Lemma GetOrZero_exec s key :
  wf s →
  key_class key ≠ Unhashable →
  GetOrZero zero key s =
    Ok (match table s !! key with
        | Some it => value it
        | None => zero
        end) s.
Proof.
  intros Hwf Hc. open_wf s Hwf t ls Ht Hk Hl.
  unfold GetOrZero. run_monad. unfold map_of. simpl. rewrite Ht. simpl.
  rewrite lookup_omap.
  destruct (key_class key) eqn:Ek; [| |done]; simpl.
  - destruct (t !! key) as [p|] eqn:E; simpl; [|done].
    destruct (Hk _ _ E) as [_ [it Hit]]. by rewrite Hit.
  - destruct (t !! key) as [p|] eqn:E; simpl; [|done].
    destruct (Hk _ _ E). congruence.
Qed.

(** With a key that cannot be hashed the methods that index the map
    panic. *)
Lemma unhashable_faults s key :
  wf s →
  key_class key = Unhashable →
  Get zero key s = unhashable ∧
  GetOrZero zero key s = unhashable ∧
  Delete key s = unhashable ∧
  ∀ v now, Put key v now s = unhashable.
Proof.
  intros Hwf Hc. open_wf s Hwf t ls Ht Hk Hl.
  unfold Get, GetOrZero, Delete, Put. run_monad.
  by rewrite Hc, Ht.
Qed.

Lemma Len_exec s :
  wf s → Len s = Ok (size (table s) + length (loose_table s))%nat s.
Proof.
  intros Hwf. rewrite table_size, loose_length by done.
  open_wf s Hwf t ls Ht Hk Hl.
  unfold Len. run_monad. unfold map_of. simpl. by rewrite Ht.
Qed.



Lemma Put_exec s key v now :
  wf s →
  key_class key ≠ Unhashable →
  ∃ s', Put key v now s = Ok tt s' ∧ wf s' ∧ same_control s s' ∧
        store_kept s s' ∧
        table s' = table_after (EPut key v now) s ∧
        loose_table s' = loose_after (EPut key v now) s.
Proof.
  intros Hwf Hc. unfold table_after, loose_after.
  open_wf s Hwf t ls Ht Hk Hl.
  unfold Put. run_monad. rewrite Ht. simpl.
  set (p := fresh (dom its)).
  assert (Hfresh : its !! p = None).
  { apply not_elem_of_dom. apply is_fresh. }
  assert (Hkv : ∀ k q, t !! k = Some q → is_Some (its !! q)).
  { intros k q Hq. by destruct (Hk k q Hq). }
  assert (Hlv : ∀ k q, (k, q) ∈ ls → is_Some (its !! q)).
  { intros k q Hq. by destruct (Hl k q Hq). }
  assert (Hitems : ∀ q it, its !! q = Some it →
                           <[p := Item v (add_unix_nano now ttl0)]> its !! q
                           = Some it).
  { intros q it Hq. rewrite lookup_insert_ne; [done|]. intros <-. congruence. }
  unfold same_control, store_kept.
  destruct (key_class key) eqn:Ek; [| |done]; simpl;
    (eexists; split; [reflexivity|]); simpl;
    rewrite !lookup_insert_eq; simpl.
  - split_and!; try done.
    + intros k q. rewrite lookup_insert. case_decide as Hkey.
      * intros [= <-]. subst k. rewrite lookup_insert_eq. eauto.
      * intros Hq. destruct (Hk _ _ Hq) as [? [it Hit]].
        split; [done|]. rewrite (Hitems _ _ Hit). eauto.
    + intros k q Hq. destruct (Hl _ _ Hq) as [? [it Hit]].
      split; [done|]. rewrite (Hitems _ _ Hit). eauto.
    + intros r d Hr Hd. by rewrite lookup_insert_ne.
    + apply map_eq. intros k. rewrite lookup_omap.
      rewrite !lookup_insert. case_decide as Hkey; simpl.
      * by rewrite lookup_insert_eq.
      * rewrite lookup_omap. destruct (t !! k) as [q|] eqn:E; simpl; [|done].
        destruct (Hkv _ _ E) as [it Hit]. by rewrite (Hitems _ _ Hit), Hit.
    + by apply loose_items_insert_fresh.
  - split_and!; try done.
    + intros k q Hq. destruct (Hk _ _ Hq) as [? [it Hit]].
      split; [done|]. rewrite (Hitems _ _ Hit). eauto.
    + intros k q [Hq|Hq%list_elem_of_singleton]%elem_of_app.
      * destruct (Hl _ _ Hq) as [? [it Hit]].
        split; [done|]. rewrite (Hitems _ _ Hit). eauto.
      * injection Hq as -> ->. rewrite lookup_insert_eq. eauto.
    + intros r d Hr Hd. by rewrite lookup_insert_ne.
    + by apply keyed_items_insert_fresh.
    + rewrite omap_app. f_equal.
      * by apply loose_items_insert_fresh.
      * simpl. by rewrite lookup_insert_eq.
Qed.

Lemma Delete_exec s key :
  wf s →
  key_class key ≠ Unhashable →
  ∃ s', Delete key s = Ok (bool_decide (is_Some (table s !! key))) s' ∧
        wf s' ∧ same_control s s' ∧ store_kept s s' ∧
        table s' = table_after (EDelete key) s ∧
        loose_table s' = loose_table s ∧
        (table s !! key = None → s' = s).
Proof.
  intros Hwf Hc. unfold table_after.
  open_wf s Hwf t ls Ht Hk Hl.
  unfold Delete. run_monad. unfold map_of. simpl. rewrite Ht. simpl.
  rewrite lookup_omap. unfold same_control, store_kept.
  destruct (key_class key) eqn:Ek; [| |done]; simpl.
  - destruct (t !! key) as [p|] eqn:E; simpl.
    + destruct (Hk _ _ E) as [_ [it Hit]]. rewrite Hit, Ht. simpl.
      eexists. split; [reflexivity|]. simpl. rewrite !lookup_insert_eq. simpl.
      split_and!; try done.
      * intros k q Hq. apply lookup_delete_Some in Hq as [_ Hq]. eauto.
      * intros r d Hr Hd. by rewrite lookup_insert_ne.
      * apply map_eq. intros k. rewrite lookup_omap, !lookup_delete.
        case_decide; simpl; [done|]. by rewrite lookup_omap.
    + eexists. split; [reflexivity|]. simpl. rewrite Ht. simpl.
      split_and!; try done.
      symmetry. apply delete_id. by rewrite lookup_omap, E.
  - assert (E : t !! key = None).
    { destruct (t !! key) as [p|] eqn:E; [|done].
      destruct (Hk _ _ E). congruence. }
    rewrite E. simpl.
    eexists. split; [reflexivity|]. simpl. rewrite Ht. simpl.
    split_and!; done.
Qed.

Lemma Clear_exec s :
  wf s →
  ∃ s', Clear s = Ok tt s' ∧ wf s' ∧ same_control s s' ∧ store_kept s s' ∧
        table s' = ∅ ∧ loose_table s' = [] ∧
        Clear s' = Ok tt s'.
Proof.
  intros Hwf. open_wf s Hwf t ls Ht Hk Hl.
  unfold Clear. run_monad. rewrite Ht. simpl.
  eexists. split; [reflexivity|]. unfold same_control, store_kept. simpl.
  rewrite !lookup_insert_eq. simpl. split_and!; try done.
  - intros k q Hq. by apply elem_of_nil in Hq.
  - intros r d Hr Hd. by rewrite lookup_insert_ne.
  - by rewrite insert_insert_eq.
Qed.

End Facts.

(** *** Loops over a map *)

Section Loops.
Context `{Countable K, !Key K} {item : Type}.

Implicit Types (t d : gmap K ptr) (ls dl : list (K * ptr))
  (its : gmap ptr item) (ms : gmap ptr (gomap K)).

(** A loop that deletes the visited keys whose item satisfies [P] leaves
    the items and the entries under irreflexive keys alone, and takes
    out of the map exactly the visited usable keys whose item satisfies
    [P]. *)
Lemma for_range_prune (P : item → Prop) `{∀ it, Decision (P it)} order :
  ∀ t ls its ms e ttl0 l sw tk,
    ms !! e = Some (GoMap t ls) →
    (∀ k p, t !! k = Some p → key_class k = Usable ∧ is_Some (its !! p)) →
    (∀ k p, (k, p) ∈ ls → key_class k = Irreflexive ∧ is_Some (its !! p)) →
    ∃ t' : gmap K ptr,
      for_range e order (λ k v,
        it <- load v ;;
        if decide (P it) then map_delete e k else ret tt)
        (MkState its ms e ttl0 l sw tk)
      = Ok tt (MkState its (<[e := GoMap t' ls]> ms) e ttl0 l sw tk) ∧
      ∀ k, t' !! k =
           t !! k ≫= λ p, its !! p ≫= λ it,
             if decide (k ∈ order.*1 ∧ P it) then None else Some p.
Proof.
  induction order as [|[k0 p0] rest IH];
    intros t ls its ms e ttl0 l sw tk Ht Hk Hl.
  - exists t. split.
    + simpl. unfold ret. by rewrite insert_id.
    + intros k. destruct (t !! k) as [p|] eqn:E; simpl; [|done].
      by destruct (Hk _ _ E) as [_ [it ->]].
  - assert (Hskip :
      ∃ t' : gmap K ptr,
        for_range e rest (λ k v,
          it <- load v ;;
          if decide (P it) then map_delete e k else ret tt)
          (MkState its ms e ttl0 l sw tk)
        = Ok tt (MkState its (<[e := GoMap t' ls]> ms) e ttl0 l sw tk) ∧
        ∀ k, t' !! k =
             t !! k ≫= λ p, its !! p ≫= λ it,
               if decide (k ∈ rest.*1 ∧ P it) then None else Some p)
      by (by apply IH).
    simpl. unfold bind at 1. unfold map_of. simpl. rewrite Ht. simpl.
    destruct (key_class k0) eqn:Ek0.
    + (* a usable key *)
      destruct (t !! k0) as [v|] eqn:E0.
      * destruct (Hk _ _ E0) as [_ [it0 Hit0]].
        unfold bind at 1. unfold load. simpl. rewrite Hit0.
        destruct (decide (P it0)) as [Hexp|Hexp].
        -- unfold map_delete. rewrite Ek0. simpl. rewrite Ht.
           destruct (IH (delete k0 t) ls its (<[e := GoMap (delete k0 t) ls]> ms)
                       e ttl0 l sw tk) as (t' & Hrun & Hlook).
           { by rewrite lookup_insert_eq. }
           { intros k p Hq. apply lookup_delete_Some in Hq as [_ Hq]. eauto. }
           { done. }
           exists t'. split.
           { unfold set_maps. simpl. etrans; [exact Hrun|].
             by rewrite insert_insert_eq. }
           intros k. rewrite Hlook, lookup_delete.
           case_decide as Hkey; simpl.
           { subst k. rewrite E0. simpl. rewrite Hit0. simpl.
             rewrite decide_True; [done|]. split; [left | done]. }
           destruct (t !! k) as [p|]; simpl; [|done].
           destruct (its !! p) as [it|]; simpl; [|done].
           apply decide_ext. simpl. rewrite elem_of_cons. intuition congruence.
        -- unfold ret. destruct Hskip as (t' & Hrun & Hlook).
           exists t'. split; [done|].
           intros k. rewrite Hlook.
           destruct (t !! k) as [p|] eqn:E; simpl; [|done].
           destruct (its !! p) as [it|] eqn:Eit; simpl; [|done].
           apply decide_ext. simpl. rewrite elem_of_cons.
           split; [intuition congruence|]. intros [[->|Hin] Hle]; [|done].
           assert (it = it0) by congruence. by subst.
      * destruct Hskip as (t' & Hrun & Hlook).
        exists t'. split; [done|].
        intros k. rewrite Hlook.
        destruct (t !! k) as [p|] eqn:E; simpl; [|done].
        destruct (its !! p) as [it|] eqn:Eit; simpl; [|done].
        apply decide_ext. simpl. rewrite elem_of_cons.
        split; [intuition congruence|].
        intros [[->|Hin] Hle]; [congruence|done].
    + (* a key that is not equal to itself *)
      assert (Hother : ∀ k p, t !! k = Some p → k ≠ k0).
      { intros k p Hq ->. destruct (Hk _ _ Hq). congruence. }
      assert (Hstep :
        (if bool_decide ((k0, p0) ∈ ls)
         then (it <- load p0 ;;
               if decide (P it) then map_delete e k0 else ret tt)
                (MkState its ms e ttl0 l sw tk)
         else Ok tt (MkState its ms e ttl0 l sw tk))
        = Ok tt (MkState its ms e ttl0 l sw tk)).
      { case_bool_decide as Hin; [|done].
        destruct (Hl _ _ Hin) as [_ [it0 Hit0]].
        unfold bind, load. simpl. rewrite Hit0.
        destruct (decide (P it0)); [|done].
        unfold map_delete. by rewrite Ek0. }
      rewrite Hstep. destruct Hskip as (t' & Hrun & Hlook).
      exists t'. split; [done|].
      intros k. rewrite Hlook.
      destruct (t !! k) as [p|] eqn:E; simpl; [|done].
      destruct (its !! p) as [it|] eqn:Eit; simpl; [|done].
      apply decide_ext. simpl. rewrite elem_of_cons.
      pose proof (Hother _ _ E). intuition congruence.
    + (* a key that cannot be hashed is in no map *)
      assert (Hnot : (k0, p0) ∉ ls).
      { intros Hin. destruct (Hl _ _ Hin). congruence. }
      rewrite bool_decide_eq_false_2 by done.
      assert (Hother : ∀ k p, t !! k = Some p → k ≠ k0).
      { intros k p Hq ->. destruct (Hk _ _ Hq). congruence. }
      destruct Hskip as (t' & Hrun & Hlook).
      exists t'. split; [done|].
      intros k. rewrite Hlook.
      destruct (t !! k) as [p|] eqn:E; simpl; [|done].
      destruct (its !! p) as [it|] eqn:Eit; simpl; [|done].
      apply decide_ext. simpl. rewrite elem_of_cons.
      pose proof (Hother _ _ E). intuition congruence.
Qed.

(** The loop of [maps.Copy]: the usable keys visited get in [dst] the
    pointer they have in [src], and the entries under irreflexive keys
    visited are added to [dst]. *)
Lemma for_range_copy src dst order :
  src ≠ dst →
  ∀ t ls d dl its ms e ttl0 l sw tk,
    ms !! src = Some (GoMap t ls) →
    ms !! dst = Some (GoMap d dl) →
    (∀ k p, t !! k = Some p → key_class k = Usable) →
    (∀ k p, (k, p) ∈ ls → key_class k = Irreflexive) →
    ∃ d' : gmap K ptr,
      for_range src order (λ k v, map_assign dst k v)
        (MkState its ms e ttl0 l sw tk)
      = Ok tt (MkState its
                 (<[dst := GoMap d'
                      (dl ++ filter (λ kp, key_class kp.1 ≠ Usable ∧ kp ∈ ls)
                               order)]> ms)
                 e ttl0 l sw tk) ∧
      ∀ k, d' !! k =
           if decide (k ∈ order.*1 ∧ key_class k = Usable) then
             match t !! k with Some v => Some v | None => d !! k end
           else d !! k.
Proof.
  intros Hne.
  induction order as [|[k0 p0] rest IH];
    intros t ls d dl its ms e ttl0 l sw tk Ht Hd Hk Hl.
  - exists d. split.
    + simpl. unfold ret. rewrite app_nil_r. by rewrite insert_id.
    + intros k. rewrite decide_False; [done|].
      intros [Hin _]. by apply elem_of_nil in Hin.
  - simpl. unfold bind at 1. unfold map_of. simpl. rewrite Ht. simpl.
    destruct (key_class k0) eqn:Ek0.
    + rewrite filter_cons_False by (simpl; intros [? _]; congruence).
      destruct (t !! k0) as [v|] eqn:E0.
      * unfold map_assign. simpl. rewrite Hd, Ek0.
        destruct (IH t ls (<[k0 := v]> d) dl its
                    (<[dst := GoMap (<[k0 := v]> d) dl]> ms)
                    e ttl0 l sw tk) as (d' & Hrun & Hlook); try done.
        { by rewrite lookup_insert_ne. }
        { by rewrite lookup_insert_eq. }
        exists d'. split.
        { unfold set_maps. simpl. etrans; [exact Hrun|].
          by rewrite insert_insert_eq. }
        intros k. rewrite Hlook.
        destruct (decide (k = k0)) as [->|Hkey].
        -- rewrite E0, lookup_insert_eq.
           transitivity (Some v); [by case_decide|]. symmetry.
           rewrite decide_True; [done|]. split; [left|done].
        -- rewrite lookup_insert_ne by done.
           apply decide_ext. simpl. rewrite elem_of_cons. intuition congruence.
      * destruct (IH t ls d dl its ms e ttl0 l sw tk Ht Hd Hk Hl)
          as (d' & Hrun & Hlook).
        exists d'. split; [done|].
        intros k. rewrite Hlook.
        destruct (decide (k = k0)) as [->|Hkey].
        -- rewrite E0.
           transitivity (d !! k0); [by case_decide|]. symmetry.
           rewrite decide_True; [done|]. split; [left|done].
        -- apply decide_ext. simpl. rewrite elem_of_cons. intuition congruence.
    + case_bool_decide as Hin.
      * rewrite filter_cons_True by (simpl; split; [congruence|done]).
        unfold map_assign. simpl. rewrite Hd, Ek0.
        destruct (IH t ls d (dl ++ [(k0, p0)]) its
                    (<[dst := GoMap d (dl ++ [(k0, p0)])]> ms)
                    e ttl0 l sw tk) as (d' & Hrun & Hlook); try done.
        { by rewrite lookup_insert_ne. }
        { by rewrite lookup_insert_eq. }
        exists d'. split.
        { unfold set_maps. simpl. etrans; [exact Hrun|].
          by rewrite insert_insert_eq, <- app_assoc. }
        intros k. rewrite Hlook.
        apply decide_ext. simpl. rewrite elem_of_cons.
        split; [tauto|]. intros [[->|?] ?]; [congruence|done].
      * rewrite filter_cons_False by (simpl; tauto).
        destruct (IH t ls d dl its ms e ttl0 l sw tk Ht Hd Hk Hl)
          as (d' & Hrun & Hlook).
        exists d'. split; [done|].
        intros k. rewrite Hlook.
        apply decide_ext. simpl. rewrite elem_of_cons.
        split; [tauto|]. intros [[->|?] ?]; [congruence|done].
    + assert (Hnot : (k0, p0) ∉ ls).
      { intros Hin. pose proof (Hl _ _ Hin). congruence. }
      rewrite bool_decide_eq_false_2 by done.
      rewrite filter_cons_False by (simpl; tauto).
      destruct (IH t ls d dl its ms e ttl0 l sw tk Ht Hd Hk Hl)
        as (d' & Hrun & Hlook).
      exists d'. split; [done|].
      intros k. rewrite Hlook.
      apply decide_ext. simpl. rewrite elem_of_cons.
      split; [tauto|]. intros [[->|?] ?]; [congruence|done].
Qed.

Lemma filter_none {A} (P : A → Prop) `{∀ x, Decision (P x)} (l : list A) :
  (∀ x, x ∈ l → ¬ P x) → filter P l = [].
Proof.
  induction l as [|x l IH]; intros Hl; [done|].
  rewrite filter_cons_False by (apply Hl; left).
  apply IH. intros y Hy. apply Hl. by right.
Qed.

Lemma filter_all {A} (P : A → Prop) `{∀ x, Decision (P x)} (l : list A) :
  (∀ x, x ∈ l → P x) → filter P l = l.
Proof.
  induction l as [|x l IH]; intros Hl; [done|].
  rewrite filter_cons_True by (apply Hl; left).
  f_equal. apply IH. intros y Hy. apply Hl. by right.
Qed.

(** Over the whole map, in the order of [range_order], the loop copies
    every entry. *)
Lemma copied_entries t ls :
  (∀ k p, t !! k = Some p → key_class k = Usable) →
  (∀ k p, (k, p) ∈ ls → key_class k = Irreflexive) →
  filter (λ kp : K * ptr, key_class kp.1 ≠ Usable ∧ kp ∈ ls)
    (map_to_list t ++ ls) = ls.
Proof.
  intros Hk Hl. rewrite filter_app.
  rewrite filter_none, filter_all; [done| |].
  - intros [k p] Hin. simpl. split; [|done].
    rewrite (Hl k p Hin). discriminate.
  - intros [k p] Hin%elem_of_map_to_list [Hc _]. simpl in Hc.
    by rewrite (Hk k p Hin) in Hc.
Qed.

End Loops.

Section Sweeps.
Context `{Countable K, !Key K} {V : Type}.
Variable zero : V.

Local Abbreviation St := (State K (item V)).

Implicit Types (s : St) (k key : K) (p r : ptr) (it : item V).

Ltac open_wf s Hwf t ls Ht Hk Hl :=
  destruct s as [its ms e ttl0 l sw tk];
  unfold wf, map_ok, table, loose_table, table_of, loose_of, map_of in *;
  simpl in *;
  destruct Hwf as (-> & [[t ls] Ht] & Hk & Hl); rewrite ?Ht in *;
  simpl in *.

(** *** The sweep *)

Lemma sweep_in_exec s order now :
  wf s →
  ∃ s', sweep_in order now s = Ok tt s' ∧ wf s' ∧ same_control s s' ∧
        store_kept s s' ∧ items s' = items s ∧
        loose_table s' = loose_table s ∧
        ∀ k, table s' !! k =
             table s !! k ≫= λ it,
               if decide (k ∈ order.*1 ∧ expires it <= now) then None
               else Some it.
Proof.
  intros Hwf. open_wf s Hwf t ls Ht Hk Hl.
  destruct (for_range_prune (λ it : item V, now >= expires it)
              order t ls its ms e ttl0 WLocked sw tk Ht Hk Hl)
    as (t' & Hrun & Hlook).
  unfold sweep_in, bind at 1 2 3. unfold Lock, set_lock, get_entries.
  simpl. rewrite Hrun. unfold Unlock, set_lock. simpl.
  eexists. split; [reflexivity|]. unfold same_control, store_kept. simpl.
  rewrite !lookup_insert_eq. simpl. split_and!; try done.
  - intros k p. rewrite Hlook. intros Hq.
    destruct (t !! k) as [q|] eqn:E; simpl in Hq; [|done].
    destruct (Hk _ _ E) as [? [it Hit]]. rewrite Hit in Hq. simpl in Hq.
    case_decide; [done|]. injection Hq as <-. eauto.
  - intros r d Hr Hd. by rewrite lookup_insert_ne.
  - intros k. rewrite !lookup_omap, Hlook.
    destruct (t !! k) as [q|] eqn:E; simpl; [|done].
    destruct (Hk _ _ E) as [_ [it Hit]]. rewrite Hit. simpl.
    rewrite (decide_ext (k ∈ order.*1 ∧ now >= expires it)
               (k ∈ order.*1 ∧ expires it <= now)) by (split; intros [? ?]; split; (done || lia)).
    case_decide; simpl; [done|]. by rewrite Hit.
Qed.

Lemma range_order_covers s k it :
  wf s → table s !! k = Some it →
  k ∈ (range_order (entries s) s).*1.
Proof.
  intros Hwf Hk. destruct (table_lookup_Some s k it Hwf Hk) as (_ & p & Hp & _).
  unfold range_order. rewrite fmap_app, elem_of_app. left.
  apply list_elem_of_fmap. exists (k, p). split; [done|].
  by apply elem_of_map_to_list.
Qed.

(** When the loop visits every entry of the map, what is left under
    the usable keys is the table filtered by "not yet expired". *)
Lemma sweep_in_filter s order now :
  wf s → order ≡ₚ range_order (entries s) s →
  ∃ s', sweep_in order now s = Ok tt s' ∧ wf s' ∧ same_control s s' ∧
        store_kept s s' ∧ items s' = items s ∧
        loose_table s' = loose_table s ∧
        table s' = filter (λ kv, now < expires kv.2) (table s).
Proof.
  intros Hwf Hperm.
  destruct (sweep_in_exec s order now Hwf)
    as (s' & Hrun & Hwf' & Hc & Hs & Hi & Hloose & Hl).
  exists s'. split_and!; try done.
  apply map_eq. intros k. rewrite Hl.
  destruct (table s !! k) as [it|] eqn:E; simpl.
  - case_decide as Hd.
    + symmetry. apply map_lookup_filter_None. right.
      intros it' Hit'. simpl. assert (it' = it) by congruence. subst. lia.
    + symmetry. apply map_lookup_filter_Some. split; [done|]. simpl.
      destruct (decide (now < expires it)) as [|Hge]; [done|].
      exfalso. apply Hd. split; [|lia].
      rewrite Hperm. by apply (range_order_covers s k it).
  - symmetry. apply map_lookup_filter_None. by left.
Qed.

Lemma sweep_exec s now :
  wf s →
  ∃ s', sweep now s = Ok tt s' ∧ wf s' ∧ same_control s s' ∧
        store_kept s s' ∧ items s' = items s ∧
        loose_table s' = loose_table s ∧
        table s' = filter (λ kv, now < expires kv.2) (table s).
Proof.
  intros Hwf. unfold sweep, bind, get_state.
  by apply sweep_in_filter.
Qed.

(** *** Copy *)

Lemma Copy_exec s :
  wf s →
  ∃ snap s', Copy s = Ok snap s' ∧ wf s' ∧ same_control s s' ∧
             store_kept s s' ∧ items s' = items s ∧
             maps s !! snap = None ∧
             maps s' = <[snap := map_of (entries s) s]> (maps s) ∧
             table s' = table s ∧ loose_table s' = loose_table s.
Proof.
  intros Hwf. open_wf s Hwf t ls Ht Hk Hl.
  set (snap := fresh (dom ms)).
  assert (Hfresh : ms !! snap = None).
  { apply not_elem_of_dom. apply is_fresh. }
  assert (Hne : e ≠ snap) by (intros ->; congruence).
  assert (Hku : ∀ k p, t !! k = Some p → key_class k = Usable).
  { intros k p Hq. by destruct (Hk k p Hq). }
  assert (Hli : ∀ k p, (k, p) ∈ ls → key_class k = Irreflexive).
  { intros k p Hq. by destruct (Hl k p Hq). }
  destruct (for_range_copy e snap (map_to_list t ++ ls) Hne t ls ∅ []
              its (<[snap := empty_map]> ms) e ttl0 WLocked sw tk)
    as (d' & Hrun & Hlook); try done.
  { by rewrite lookup_insert_ne. }
  { by rewrite lookup_insert_eq. }
  rewrite (copied_entries t ls Hku Hli) in Hrun. simpl in Hrun.
  assert (Hd' : d' = t).
  { apply map_eq. intros k. rewrite Hlook. case_decide as Hin.
    - destruct (t !! k); [done|]. by rewrite lookup_empty.
    - rewrite lookup_empty. symmetry. apply eq_None_not_Some.
      intros [p Hp]. apply Hin. split; [|by apply (Hku k p)].
      rewrite fmap_app, elem_of_app. left.
      apply list_elem_of_fmap. exists (k, p). split; [done|].
      by apply elem_of_map_to_list. }
  subst d'.
  exists snap. unfold Copy, maps_Copy, range, defer.
  unfold bind at 1 2 3 4 5 6. unfold Lock, get_entries, make_map, get_state,
    set_lock, set_maps, range_order, map_of. simpl. fold snap.
  rewrite lookup_insert_ne, Ht by done. simpl.
  rewrite Hrun. unfold bind, ret, Unlock, set_lock. simpl.
  eexists. split; [reflexivity|]. unfold same_control, store_kept. simpl.
  rewrite insert_insert_eq, lookup_insert_ne, Ht by done. simpl.
  split_and!; try done.
  intros r d Hr Hd. rewrite lookup_insert_ne; [done|]. intros <-. congruence.
Qed.

End Sweeps.

Section Steps.
Context `{Countable K, !Key K} {V : Type}.
Variable zero : V.

Local Abbreviation St := (State K (item V)).

Implicit Types (s : St) (k key : K) (p r : ptr) (it : item V).

Ltac run_monad :=
  unfold defer, bind, ret, get_entries, get_ttl, get_state,
    RLock, RUnlock, Lock, Unlock, map_index, map_len, map_delete,
    map_clear, map_assign, new_item, load, set_lock, set_maps, set_items,
    unhashable;
  simpl.

Ltac open_wf s Hwf t ls Ht Hk Hl :=
  destruct s as [its ms e ttl0 l sw tk];
  unfold wf, map_ok, table, loose_table, table_of, loose_of, map_of in *;
  simpl in *;
  destruct Hwf as (-> & [[t ls] Ht] & Hk & Hl); rewrite ?Ht in *;
  simpl in *.

(** *** Changes of the map [Copy] returned *)

(** A change of the copy's own bindings does not reach the live map. *)
Lemma mutate_map_level snap mu s s' :
  map_level mu = true →
  wf s → snap ≠ entries s → is_Some (maps s !! snap) →
  mutate snap mu s = Ok tt s' →
  wf s' ∧ same_control s s' ∧ is_Some (maps s' !! snap) ∧
  items s' = items s ∧
  map_of (entries s') s' = map_of (entries s) s ∧
  table s' = table s ∧ loose_table s' = loose_table s.
Proof.
  intros Hlevel Hwf Hne [d Hd]. open_wf s Hwf t ls Ht Hk Hl.
  unfold same_control.
  destruct mu as [k p|k| |k it]; simpl in *; [| | |done];
    run_monad; rewrite ?Hd; simpl.
  - destruct (key_class k); [| |done]; intros [= <-]; simpl;
      rewrite lookup_insert_eq, lookup_insert_ne, Ht by done; simpl;
      split_and!; eauto.
  - destruct (key_class k); [| |done]; rewrite ?Hd; intros [= <-]; simpl;
      rewrite ?lookup_insert_eq, ?lookup_insert_ne, ?Ht by done; simpl;
      split_and!; eauto.
  - intros [= <-]; simpl.
    rewrite lookup_insert_eq, lookup_insert_ne, Ht by done; simpl.
    split_and!; eauto.
Qed.

Lemma mutate_returns snap mu s :
  map_level mu = true → hashable_mutation mu →
  is_Some (maps s !! snap) →
  ∃ s', mutate snap mu s = Ok tt s'.
Proof.
  intros Hlevel Hh [d Hd].
  destruct mu as [k p|k| |k it]; simpl in *; [| | |done];
    run_monad; rewrite ?Hd; simpl.
  - destruct (key_class k); [| |done]; eauto.
  - destruct (key_class k); [| |done]; rewrite ?Hd; eauto.
  - eauto.
Qed.

Lemma mutate_all_map_level snap mus : ∀ s s',
  Forall (λ mu, map_level mu = true) mus →
  wf s → snap ≠ entries s → is_Some (maps s !! snap) →
  mutate_all snap mus s = Ok tt s' →
  wf s' ∧ items s' = items s ∧
  map_of (entries s') s' = map_of (entries s) s ∧
  table s' = table s ∧ loose_table s' = loose_table s.
Proof.
  induction mus as [|mu mus IH]; intros s s' Hall Hwf Hne Hsnap; simpl.
  - by intros [= <-].
  - apply Forall_cons in Hall as [Hmu Hall].
    unfold bind. destruct (mutate snap mu s) as [[] s1| |] eqn:E1; [|done..].
    destruct (mutate_map_level snap mu s s1 Hmu Hwf Hne Hsnap E1)
      as (Hwf1 & Hc1 & Hsnap1 & Hi1 & Hm1 & Ht1 & Hl1).
    assert (Hne1 : snap ≠ entries s1).
    { destruct Hc1 as (-> & _). done. }
    intros Hrun.
    destruct (IH s1 s' Hall Hwf1 Hne1 Hsnap1 Hrun)
      as (Hwf2 & Hi2 & Hm2 & Ht2 & Hl2).
    split_and!; congruence.
Qed.

Lemma mutate_all_returns snap mus : ∀ s,
  Forall (λ mu, map_level mu = true) mus →
  Forall hashable_mutation mus →
  wf s → snap ≠ entries s → is_Some (maps s !! snap) →
  ∃ s', mutate_all snap mus s = Ok tt s'.
Proof.
  induction mus as [|mu mus IH]; intros s Hall Hhash Hwf Hne Hsnap; simpl.
  - by exists s.
  - apply Forall_cons in Hall as [Hmu Hall].
    apply Forall_cons in Hhash as [Hh Hhash].
    destruct (mutate_returns snap mu s Hmu Hh Hsnap) as (s1 & E1).
    destruct (mutate_map_level snap mu s s1 Hmu Hwf Hne Hsnap E1)
      as (Hwf1 & Hc1 & Hsnap1 & _).
    assert (Hne1 : snap ≠ entries s1).
    { destruct Hc1 as (-> & _). done. }
    destruct (IH s1 Hall Hhash Hwf1 Hne1 Hsnap1) as (s2 & Hrun2).
    exists s2. unfold bind. by rewrite E1.
Qed.

(** A write through a pointer that the copy shares with the live map
    is a write to the live entry. *)
Lemma mutate_store snap k it' s p :
  wf s →
  keyed (map_of snap s) !! k = Some p →
  keyed (map_of (entries s) s) !! k = Some p →
  ∃ s', mutate snap (MutStore k it') s = Ok tt s' ∧ wf s' ∧
        table s' !! k = Some it'.
Proof.
  intros Hwf Hsnap Hlive.
  pose proof Hwf as (Hl & Hm & Hval & Hlo).
  destruct (Hval _ _ Hlive) as [Hc [it Hit]].
  unfold mutate, bind, map_index, store. rewrite Hc, Hsnap, Hit.
  eexists. split; [reflexivity|]. split.
  - unfold wf, map_ok, map_of in *. simpl. split_and!; try done.
    + intros k' q Hq. destruct (Hval _ _ Hq). split; [done|].
      apply lookup_insert_is_Some'. by right.
    + intros k' q Hq. destruct (Hlo _ _ Hq). split; [done|].
      apply lookup_insert_is_Some'. by right.
  - rewrite table_lookup. unfold map_of in *. simpl. rewrite Hlive. simpl.
    by rewrite lookup_insert_eq.
Qed.

(** *** The goroutine and Close *)

Lemma sweeper_start_exec s :
  wf s →
  startable s →
  ∃ s', sweeper_start s = Ok tt s' ∧ wf s' ∧ table s' = table s ∧
        loose_table s' = loose_table s ∧
        entries s' = entries s ∧ ttl s' = ttl s ∧
        (sweeper s' = match sweeper s with Spawned _ => Running | g => g end).
Proof.
  intros Hwf Hd. unfold sweeper_start.
  destruct (sweeper s) as [d| |] eqn:E; try (exists s; by rewrite ?E).
  specialize (Hd d E). rewrite decide_False by lia.
  eexists. split; [reflexivity|]. by destruct s.
Qed.

Lemma sweeper_start_wf s s' :
  wf s → sweeper_start s = Ok tt s' →
  wf s' ∧ items s' = items s ∧ maps s' = maps s ∧
  entries s' = entries s ∧ ttl s' = ttl s.
Proof.
  intros Hwf. unfold sweeper_start.
  destruct (sweeper s) as [d| |]; try (by intros [= <-]).
  case_decide; [done|]. intros [= <-]. by destruct s.
Qed.

Lemma sweeper_return_exec s :
  wf s →
  ∃ s', sweeper_return s = Ok tt s' ∧ wf s' ∧
        items s' = items s ∧ maps s' = maps s ∧
        entries s' = entries s ∧ ttl s' = ttl s ∧
        sweeper s' = Stopped ∧ ticker s' = TickerStopped.
Proof. intros Hwf. eexists. split; [reflexivity|]. by destruct s. Qed.

Lemma send_stop_wf s s' :
  wf s → send_stop s = Ok tt s' →
  wf s' ∧ items s' = items s ∧ maps s' = maps s ∧
  entries s' = entries s ∧ ttl s' = ttl s ∧
  sweeper s' = Stopped ∧ ticker s' = TickerStopped.
Proof.
  intros Hwf. unfold send_stop.
  destruct (sweeper s) as [d| |] eqn:E; [| |done].
  - unfold bind. destruct (sweeper_start s) as [[] s1| |] eqn:E1; [|done..].
    destruct (sweeper_start_wf _ _ Hwf E1) as (Hwf1 & ? & ? & ? & ?).
    destruct (sweeper_return_exec s1 Hwf1)
      as (s2 & -> & ? & ? & ? & ? & ? & ? & ?).
    intros [= <-]. split_and!; congruence.
  - destruct (sweeper_return_exec s Hwf)
      as (s2 & -> & ? & ? & ? & ? & ? & ? & ?).
    intros [= <-]. split_and!; congruence.
Qed.

(** States with the same store and live map have the same tables. *)
Lemma same_store_tables s s' :
  items s' = items s → maps s' = maps s → entries s' = entries s →
  table s' = table s ∧ loose_table s' = loose_table s.
Proof.
  intros Hi Hm He. unfold table, loose_table, table_of, loose_of, map_of.
  by rewrite Hi, Hm, He.
Qed.

Lemma send_stop_exec s :
  wf s → sweeper s ≠ Stopped → startable s →
  ∃ s', send_stop s = Ok tt s' ∧ wf s' ∧
        items s' = items s ∧ maps s' = maps s ∧
        entries s' = entries s ∧ ttl s' = ttl s ∧
        sweeper s' = Stopped ∧ ticker s' = TickerStopped.
Proof.
  intros Hwf Hns Hd.
  assert (∃ s', send_stop s = Ok tt s') as [s' Hs'].
  { unfold send_stop. destruct (sweeper s) as [d| |] eqn:E; [| |done].
    - destruct (sweeper_start_exec s Hwf Hd) as (s1 & Hrun1 & _).
      unfold bind. rewrite Hrun1. by eexists.
    - by eexists. }
  exists s'. split; [done|]. by apply send_stop_wf.
Qed.

Lemma tick_exec s now :
  wf s →
  ∃ s', tick now s = Ok tt s' ∧ wf s' ∧ same_control s s' ∧
        store_kept s s' ∧
        table s' = table_after (ETick now) s ∧
        loose_table s' = loose_table s.
Proof.
  intros Hwf. unfold tick, table_after.
  destruct (sweeper s) eqn:E; try (exists s; by rewrite ?E).
  destruct (sweep_exec s now Hwf) as (s' & ? & ? & ? & ? & ? & ? & ?).
  by exists s'.
Qed.


(** Ticks never touch the entries under irreflexive keys. *)
Lemma ticks_loose ticks : ∀ s,
  wf s →
  ∃ s', run zero (ETick <$> ticks) s = Ok tt s' ∧ wf s' ∧
        same_control s s' ∧ loose_table s' = loose_table s.
Proof.
  induction ticks as [|t ticks IH]; intros s Hwf.
  - exists s. by split_and!.
  - destruct (tick_exec s t Hwf) as (s1 & Hrun1 & Hwf1 & Hc1 & _ & _ & Hl1).
    destruct (IH s1 Hwf1) as (s2 & Hrun2 & Hwf2 & Hc2 & Hl2).
    exists s2. simpl. unfold bind. rewrite Hrun1.
    split_and!; try done; [|congruence].
    destruct Hc1 as (?&?&?&?), Hc2 as (?&?&?&?).
    unfold same_control. split_and!; congruence.
Qed.

(** *** The store under the methods *)

Lemma store_kept_refl s : store_kept s s.
Proof. by split. Qed.

Lemma store_kept_trans s1 s2 s3 :
  entries s2 = entries s1 →
  store_kept s1 s2 → store_kept s2 s3 → store_kept s1 s3.
Proof.
  intros He [Hi1 Hm1] [Hi2 Hm2]. split.
  - eauto.
  - intros r d Hr Hd. apply Hm2; [congruence|]. by apply Hm1.
Qed.

Lemma same_store_kept s s' :
  items s' = items s → maps s' = maps s → store_kept s s'.
Proof. intros Hi Hm. split; intros; congruence. Qed.

(** *** Reachable states *)

(** An event that returns: its key could be hashed, the state after it
    is a state between two events again, and its tables are those the
    refinement gives. *)
Lemma step_ok e s s' :
  wf s → step zero e s = Ok tt s' →
  hashable e ∧ wf s' ∧ entries s' = entries s ∧ ttl s' = ttl s ∧
  store_kept s s' ∧
  table s' = table_after e s ∧ loose_table s' = loose_after e s.
Proof.
  intros Hwf.
  assert (Hun : ∀ key, key_class key = Unhashable ∨ key_class key ≠ Unhashable).
  { intros key. destruct (key_class key); auto. }
  destruct e as [key v now|key|key|key| | | | | |now]; simpl.
  - destruct (Hun key) as [Hu|Hh].
    { destruct (unhashable_faults zero s key Hwf Hu) as (_ & _ & _ & ->).
      done. }
    destruct (Put_exec s key v now Hwf Hh)
      as (s1 & -> & ? & (?&?&?&?) & ? & ? & ?).
    by intros [= <-].
  - destruct (Hun key) as [Hu|Hh].
    { unfold bind.
      destruct (unhashable_faults zero s key Hwf Hu) as (-> & _). done. }
    unfold bind. rewrite Get_exec by done. intros [= <-].
    split_and!; try done; apply store_kept_refl.
  - destruct (Hun key) as [Hu|Hh].
    { unfold bind.
      destruct (unhashable_faults zero s key Hwf Hu) as (_ & -> & _). done. }
    unfold bind. rewrite GetOrZero_exec by done. intros [= <-].
    split_and!; try done; apply store_kept_refl.
  - destruct (Hun key) as [Hu|Hh].
    { unfold bind.
      destruct (unhashable_faults zero s key Hwf Hu) as (_ & _ & -> & _).
      done. }
    unfold bind.
    destruct (Delete_exec s key Hwf Hh)
      as (s1 & -> & ? & (?&?&?&?) & ? & ? & ? & _).
    by intros [= <-].
  - destruct (Clear_exec s Hwf) as (s1 & -> & ? & (?&?&?&?) & ? & ? & ? & _).
    by intros [= <-].
  - unfold bind. rewrite Len_exec by done. intros [= <-].
    split_and!; try done; apply store_kept_refl.
  - unfold bind.
    destruct (Copy_exec s Hwf)
      as (snap & s1 & -> & ? & (?&?&?&?) & ? & ? & ? & ? & ? & ?).
    by intros [= <-].
  - unfold Close, bind.
    destruct (send_stop s) as [[] s1| |] eqn:E1; [|done..].
    destruct (send_stop_wf _ _ Hwf E1) as (Hwf1 & Hi & Hm & He & Httl & _).
    destruct (Clear_exec s1 Hwf1)
      as (s2 & -> & ? & (?&?&?&?) & Hs & ? & ? & _).
    intros [= <-]. split_and!; try congruence; try done.
    eapply store_kept_trans; [exact He| |exact Hs].
    by apply same_store_kept.
  - intros E1.
    destruct (sweeper_start_wf _ _ Hwf E1) as (? & Hi & Hm & He & ?).
    destruct (same_store_tables s s' Hi Hm He).
    split_and!; try done. by apply same_store_kept.
  - destruct (tick_exec s now Hwf) as (s1 & -> & ? & (?&?&?&?) & ? & ? & ?).
    by intros [= <-].
Qed.

Lemma step_wf e s s' :
  wf s → step zero e s = Ok tt s' →
  wf s' ∧ entries s' = entries s ∧ ttl s' = ttl s.
Proof.
  intros Hwf Hstep.
  by destruct (step_ok e s s' Hwf Hstep) as (_ & ? & ? & ? & _).
Qed.

(** An entry found after an event was written by that event, a [Put]
    of its key, or was there before, the same. *)
Lemma step_frame e s s' k it :
  wf s → step zero e s = Ok tt s' → table s' !! k = Some it →
  (∃ v now, e = EPut k v now ∧ it = Item v (add_unix_nano now (ttl s))) ∨
  ((∀ v now, e ≠ EPut k v now) ∧ table s !! k = Some it).
Proof.
  intros Hwf Hstep.
  destruct (step_ok e s s' Hwf Hstep) as (_ & Hwf' & _ & _ & _ & -> & _).
  destruct e as [key v now|key|key|key| | | | | |now]; simpl;
    try (by right).
  - destruct (key_class key) eqn:Ek.
    + rewrite lookup_insert. case_decide as Hk.
      * subst. intros [= <-]. left. eauto.
      * intros ?. right. split; [|done]. congruence.
    + intros Hk. right. split; [|done]. intros v' now' [= -> _ _].
      destruct (table_lookup_Some s k it Hwf Hk). congruence.
    + intros Hk. right. split; [|done]. intros v' now' [= -> _ _].
      destruct (table_lookup_Some s k it Hwf Hk). congruence.
  - destruct (key_class key); [|by right..].
    intros [_ ?]%lookup_delete_Some. by right.
  - destruct (sweeper s); try (by right).
    intros [? _]%map_lookup_filter_Some. by right.
Qed.


Lemma run_wf es : ∀ s s',
  wf s → run zero es s = Ok tt s' →
  wf s' ∧ entries s' = entries s ∧ ttl s' = ttl s.
Proof.
  induction es as [|e es IH]; intros s s' Hwf; simpl.
  - by intros [= <-].
  - unfold bind. destruct (step zero e s) as [[] s1| |] eqn:E1; [|done..].
    destruct (step_wf _ _ _ Hwf E1) as (Hwf1 & ? & ?).
    intros Hrun. destruct (IH _ _ Hwf1 Hrun) as (? & ? & ?).
    split_and!; congruence.
Qed.

Lemma run_last_put es : ∀ s s' k it,
  wf s → run zero es s = Ok tt s' → table s' !! k = Some it →
  match last_put k es with
  | Some t => expires it = add_unix_nano t (ttl s)
  | None => table s !! k = Some it
  end.
Proof.
  induction es as [|e es IH]; intros s s' k it Hwf; simpl.
  - by intros [= <-].
  - unfold bind. destruct (step zero e s) as [[] s1| |] eqn:E1; [|done..].
    destruct (step_wf _ _ _ Hwf E1) as (Hwf1 & _ & Httl).
    intros Hrun Hk. specialize (IH s1 s' k it Hwf1 Hrun Hk).
    destruct (last_put k es) as [t|]; [congruence|].
    destruct (step_frame _ _ _ _ _ Hwf E1 IH) as [(v & now & -> & ->)|[Hne ?]].
    + by rewrite decide_True.
    + destruct e; try done. case_decide; [|done]. subst. by edestruct Hne.
Qed.


(** Once the goroutine has returned, no event brings it back. *)
Lemma step_stopped e s s' :
  wf s → sweeper s = Stopped → step zero e s = Ok tt s' →
  sweeper s' = Stopped ∧ ticker s' = ticker s.
Proof.
  intros Hwf Hst.
  assert (Hun : ∀ key, key_class key = Unhashable ∨ key_class key ≠ Unhashable).
  { intros key. destruct (key_class key); auto. }
  destruct e as [key v now|key|key|key| | | | | |now]; simpl.
  - destruct (Hun key) as [Hu|Hh].
    { destruct (unhashable_faults zero s key Hwf Hu) as (_ & _ & _ & ->).
      done. }
    destruct (Put_exec s key v now Hwf Hh) as (s1 & -> & ? & (?&?&?&?) & _).
    intros [= <-]. split; congruence.
  - unfold bind. destruct (Hun key) as [Hu|Hh].
    { destruct (unhashable_faults zero s key Hwf Hu) as (-> & _). done. }
    rewrite Get_exec by done. by intros [= <-].
  - unfold bind. destruct (Hun key) as [Hu|Hh].
    { destruct (unhashable_faults zero s key Hwf Hu) as (_ & -> & _). done. }
    rewrite GetOrZero_exec by done. by intros [= <-].
  - unfold bind. destruct (Hun key) as [Hu|Hh].
    { destruct (unhashable_faults zero s key Hwf Hu) as (_ & _ & -> & _).
      done. }
    destruct (Delete_exec s key Hwf Hh) as (s1 & -> & ? & (?&?&?&?) & _).
    intros [= <-]. split; congruence.
  - destruct (Clear_exec s Hwf) as (s1 & -> & ? & (?&?&?&?) & _).
    intros [= <-]. split; congruence.
  - unfold bind. rewrite Len_exec by done. by intros [= <-].
  - unfold bind.
    destruct (Copy_exec s Hwf) as (snap & s1 & -> & ? & (?&?&?&?) & _).
    intros [= <-]. split; congruence.
  - unfold Close, bind, send_stop. by rewrite Hst.
  - unfold sweeper_start. rewrite Hst. by intros [= <-].
  - unfold tick. rewrite Hst. by intros [= <-].
Qed.

Lemma run_stopped es : ∀ s s',
  wf s → sweeper s = Stopped → run zero es s = Ok tt s' →
  wf s' ∧ sweeper s' = Stopped ∧ ticker s' = ticker s.
Proof.
  induction es as [|e es IH]; intros s s' Hwf Hst; simpl.
  - by intros [= <-].
  - unfold bind. destruct (step zero e s) as [[] s1| |] eqn:E1; [|done..].
    destruct (step_wf _ _ _ Hwf E1) as (Hwf1 & _).
    destruct (step_stopped _ _ _ Hwf Hst E1) as (Hst1 & Htk1).
    intros Hrun. destruct (IH _ _ Hwf1 Hst1 Hrun) as (? & ? & ?).
    split_and!; congruence.
Qed.

Lemma run_store es : ∀ s s',
  wf s → run zero es s = Ok tt s' → store_kept s s'.
Proof.
  induction es as [|e es IH]; intros s s' Hwf; simpl.
  - intros [= <-]. apply store_kept_refl.
  - unfold bind. destruct (step zero e s) as [[] s1| |] eqn:E1; [|done..].
    destruct (step_ok _ _ _ Hwf E1) as (_ & Hwf1 & He1 & _ & Hs1 & _).
    intros Hrun. eapply store_kept_trans; [exact He1|exact Hs1|by apply IH].
Qed.

Lemma New_wf capacity ttl0 pruneInterval :
  ∃ s0, New capacity ttl0 pruneInterval = Ok tt s0 ∧ wf s0 ∧
        table s0 = ∅ ∧ loose_table s0 = [] ∧ ttl s0 = ttl0 ∧
        sweeper s0 = Spawned pruneInterval.
Proof.
  eexists. split; [reflexivity|].
  unfold wf, map_ok, table, loose_table, table_of, loose_of, map_of. simpl.
  rewrite lookup_singleton_eq. simpl. split_and!; try done.
  intros k p Hq. by apply elem_of_nil in Hq.
Qed.

Lemma reachable_wf s : reachable zero s → wf s.
Proof.
  intros (capacity & ttl0 & pi & es & Hrun). unfold run_new in Hrun.
  destruct (New_wf capacity ttl0 pi) as (s0 & Hnew & Hwf0 & _).
  rewrite Hnew in Hrun. by destruct (run_wf _ _ _ Hwf0 Hrun).
Qed.

(** *** Histories *)

Lemma last_put_not_put key (es : list (event (K:=K) (V:=V))) :
  Forall (not_put key) es → last_put key es = None.
Proof.
  induction 1 as [|e es He Hes IH]; simpl; [done|].
  rewrite IH. destruct e; try done. simpl in He. by rewrite decide_False.
Qed.

Lemma run_harmless es : ∀ s s' k it,
  wf s → table s !! k = Some it →
  Forall (harmless k (expires it)) es →
  run zero es s = Ok tt s' →
  wf s' ∧ table s' !! k = Some it.
Proof.
  induction es as [|e es IH]; intros s s' k it Hwf Hk Hall; simpl.
  - by intros [= <-].
  - apply Forall_cons in Hall as [He Hall].
    unfold bind. destruct (step zero e s) as [[] s1| |] eqn:E1; [|done..].
    destruct (step_ok _ _ _ Hwf E1) as (_ & Hwf1 & _ & _ & _ & Htab1 & _).
    intros Hrun. apply (IH s1 s' k it Hwf1); [|done..].
    rewrite Htab1.
    destruct e as [key v now|key|key|key| | | | | |now]; simpl in *; try done.
    + destruct (key_class key); [|done..]. by rewrite lookup_insert_ne.
    + destruct (key_class key); [|done..]. by rewrite lookup_delete_ne.
    + destruct (sweeper s); try done.
      apply map_lookup_filter_Some. by split.
Qed.

End Steps.

(** * The claims *)

Section Claims.
Context `{Countable K, !Key K} {V : Type}.
Variable zero : V.

Local Abbreviation St := (State K (item V)).

Implicit Types (s : St) (k key : K) (it : item V).





(** C5.  [Len] returns the number of entries physically in the map,
    whatever their deadlines and whatever their keys: the entries of
    the table and the entries under keys that are not equal to
    themselves.  An entry whose deadline has passed at [now] is counted,
    it is still counted after reads, and it stops being counted when a
    tick at [now] sweeps it; the entries that no tick sweeps are counted
    after every tick. *)
Theorem Len_counts_physical_entries s :
  wf s →
  Len s = Ok (length (physical s)) s ∧
  length (physical s) = (size (table s) + length (loose_table s))%nat ∧
  (∀ k it now,
     table s !! k = Some it → expires it <= now →
     size (table s) = S (size (delete k (table s))) ∧
     (∃ r, Get zero k s = Ok r s ∧ Len s = Ok (length (physical s)) s) ∧
     (sweeper s = Running →
      ∃ s' n, tick now s = Ok tt s' ∧ Len s' = Ok n s' ∧
              table s' !! k = None ∧ n < length (physical s))%nat) ∧
  (∀ now, ∃ s', tick now s = Ok tt s' ∧
                loose_table s' = loose_table s ∧
                Len s' = Ok (size (table s') + length (loose_table s))%nat s').
Proof.
  intros Hwf.
  assert (Hlen : length (physical s)
                 = (size (table s) + length (loose_table s))%nat).
  { unfold physical. by rewrite length_app, length_map_to_list. }
  split_and!; [rewrite Hlen; by apply Len_exec|done| |].
  - intros k it now Hk Hexp. split_and!.
    + rewrite map_size_delete, Hk. simpl.
      assert (size (table s) ≠ 0%nat); [|lia].
      intros Hz%map_size_empty_inv. by rewrite Hz, lookup_empty in Hk.
    + destruct (table_lookup_Some s k it Hwf Hk) as (Hc & _).
      eexists. rewrite Get_exec, Hlen, Len_exec by (done || congruence).
      done.
    + intros Hrun.
      destruct (tick_exec s now Hwf) as (s' & Htick & Hwf' & _ & _ & Htab & Hl).
      simpl in Htab. rewrite Hrun in Htab.
      assert (Hgone : table s' !! k = None).
      { rewrite Htab. apply map_lookup_filter_None. right.
        intros it' Hit'. simpl. assert (it' = it) by congruence. subst. lia. }
      exists s', (size (table s') + length (loose_table s'))%nat.
      split_and!; try done.
      * by apply Len_exec.
      * assert (Hsub : table s' ⊂ table s).
        { rewrite Htab. apply map_subset_alt. split.
          - apply map_filter_subseteq.
          - exists k. rewrite <- Htab, Hgone. split; [done|]. by rewrite Hk. }
        apply map_subset_size in Hsub. rewrite Hlen, Hl. lia.
  - intros now.
    destruct (tick_exec s now Hwf) as (s' & Htick & Hwf' & _ & _ & _ & Hl).
    exists s'. split_and!; try done. rewrite <- Hl. by apply Len_exec.
Qed.

(** C6, as the code has it.  [Copy] returns a new map object that
    holds the same bindings from keys to item pointers as the live map
    at the moment of the call, so the same values and expirations, and
    leaves the live map as it was.  Assigning, deleting or clearing
    entries of the returned map, any number of times, never changes
    the live map or what [Get] returns on it (and returns, when the
    keys used can be hashed).  The items are shared: a write through an
    item pointer found in the returned map is what [Get] returns on the
    live map afterwards. *)
Theorem Copy_is_shallow s :
  wf s →
  ∃ snap s1,
    Copy s = Ok snap s1 ∧ wf s1 ∧
    maps s !! snap = None ∧
    map_of snap s1 = map_of (entries s) s ∧
    table_of snap s1 = table s ∧ loose_of snap s1 = loose_table s ∧
    table s1 = table s ∧ loose_table s1 = loose_table s ∧
    (∀ mus,
       Forall (λ mu, map_level mu = true) mus →
       (Forall hashable_mutation mus →
        ∃ s2, mutate_all snap mus s1 = Ok tt s2) ∧
       (∀ s2, mutate_all snap mus s1 = Ok tt s2 →
              table s2 = table s ∧ loose_table s2 = loose_table s ∧
              ∀ key, returned (Get zero key s2) = returned (Get zero key s))) ∧
    (∀ k it it',
       table s !! k = Some it →
       ∃ s2, mutate snap (MutStore k it') s1 = Ok tt s2 ∧
             returned (Get zero k s2) = Some (value it', true)).
Proof.
  intros Hwf.
  destruct (Copy_exec s Hwf)
    as (snap & s1 & Hrun & Hwf1 & Hc & _ & Hi & Hfresh & Hm & Htab & Hloose).
  destruct Hc as (He & _).
  assert (Hne : snap ≠ entries s1).
  { rewrite He. intros ->. destruct Hwf as (_ & [? Hs] & _). congruence. }
  assert (Hsnap : map_of snap s1 = map_of (entries s) s).
  { unfold map_of at 1. by rewrite Hm, lookup_insert_eq. }
  assert (Hlive : map_of (entries s1) s1 = map_of (entries s) s).
  { unfold map_of at 1. rewrite Hm, He, lookup_insert_ne; [done|congruence]. }
  assert (Hsome : is_Some (maps s1 !! snap)).
  { rewrite Hm, lookup_insert_eq. eauto. }
  exists snap, s1. split_and!; try done.
  - unfold table_of, table, table_of. by rewrite Hsnap, Hi.
  - unfold loose_of, loose_table, loose_of. by rewrite Hsnap, Hi.
  - intros mus Hall. split.
    + intros Hhash. by apply mutate_all_returns.
    + intros s2 Hrun2.
      destruct (mutate_all_map_level snap mus s1 s2 Hall Hwf1 Hne Hsome Hrun2)
        as (Hwf2 & _ & _ & Htab2 & Hl2).
      split_and!; [congruence..|].
      intros key. destruct (key_class key) eqn:Ek.
      * rewrite !Get_exec by (done || congruence). simpl.
        by rewrite Htab2, Htab.
      * rewrite !Get_exec by (done || congruence). simpl.
        by rewrite Htab2, Htab.
      * destruct (unhashable_faults zero s key Hwf Ek) as (-> & _).
        by destruct (unhashable_faults zero s2 key Hwf2 Ek) as (-> & _).
  - intros k it it' Hk.
    destruct (table_lookup_Some s k it Hwf Hk) as (Hc & p & Hp & _).
    destruct (mutate_store snap k it' s1 p Hwf1) as (s2 & Hrun2 & Hwf2 & Hk2).
    { by rewrite Hsnap. }
    { by rewrite Hlive. }
    exists s2. split; [done|]. rewrite Get_exec by (done || congruence).
    by rewrite Hk2.
Qed.

(** C7, as the code has it.  [New] does not look at the sweep
    interval: for every interval, positive or not, it returns an empty
    map with the goroutine created and not yet run.  With a positive
    interval the goroutine gets its ticker and waits.  With a zero or
    negative interval the failure comes after construction: the first
    statement of the goroutine, [time.NewTicker], panics when the
    goroutine runs (also when [Close] waits for it), and until then no
    tick sweeps anything. *)
Theorem New_accepts_every_interval capacity ttl0 pruneInterval :
  ∃ s0, New (K:=K) (V:=V) capacity ttl0 pruneInterval = Ok tt s0 ∧
        wf s0 ∧ table s0 = ∅ ∧ loose_table s0 = [] ∧ ttl s0 = ttl0 ∧
        sweeper s0 = Spawned pruneInterval ∧ ticker s0 = NoTicker ∧
        (0 < pruneInterval →
         ∃ s1, sweeper_start s0 = Ok tt s1 ∧ sweeper s1 = Running ∧
               ticker s1 = TickerActive pruneInterval) ∧
        (pruneInterval <= 0 →
         sweeper_start s0 = Fault "non-positive interval for NewTicker" ∧
         Close s0 = Fault "non-positive interval for NewTicker" ∧
         ∀ now, tick now s0 = Ok tt s0).
Proof.
  eexists. split; [reflexivity|].
  destruct (New_wf (K:=K) (V:=V) capacity ttl0 pruneInterval)
    as (s0 & [= <-] & Hwf0 & Htab0 & Hl0 & _).
  split_and!; try done.
  - intros Hpos. unfold sweeper_start. simpl.
    rewrite decide_False by lia. eauto.
  - intros Hneg. unfold Close, bind, send_stop, tick. simpl.
    unfold bind, sweeper_start. simpl.
    by rewrite !decide_True by lia.
Qed.

(** C8.  [Close] first signals the goroutine and then clears the
    table.  From a state whose goroutine has not returned (and whose
    interval is positive, if it has not started yet) the send
    completes with the map still as it was, the goroutine returned
    and its ticker stopped; [Clear] then empties the map, of all its
    entries.  After [Close], whatever events follow, the goroutine
    stays returned, the ticker stays stopped, and a tick sweeps
    nothing. *)
Theorem Close_stops_sweeper_then_clears s :
  wf s →
  sweeper s ≠ Stopped →
  (∀ d, sweeper s = Spawned d → 0 < d) →
  ∃ s1 s',
    send_stop s = Ok tt s1 ∧
    sweeper s1 = Stopped ∧ ticker s1 = TickerStopped ∧
    table s1 = table s ∧ loose_table s1 = loose_table s ∧
    Clear s1 = Ok tt s' ∧
    Close s = Ok tt s' ∧
    table s' = ∅ ∧ loose_table s' = [] ∧ physical s' = [] ∧
    sweeper s' = Stopped ∧ ticker s' = TickerStopped ∧
    ∀ es s'',
      run zero es s' = Ok tt s'' →
      sweeper s'' = Stopped ∧ ticker s'' = TickerStopped ∧
      ∀ now, tick now s'' = Ok tt s''.
Proof.
  intros Hwf Hns Hd.
  destruct (send_stop_exec s Hwf Hns Hd)
    as (s1 & Hsend & Hwf1 & Hi1 & Hm1 & He1 & _ & Hst1 & Htk1).
  destruct (same_store_tables s s1 Hi1 Hm1 He1) as [Htab1 Hl1].
  destruct (Clear_exec s1 Hwf1)
    as (s' & Hclear & Hwf' & (_&_&Hst'&Htk') & _ & Htab' & Hl' & _).
  exists s1, s'. split_and!; try congruence.
  - unfold Close, bind. by rewrite Hsend.
  - unfold physical. by rewrite Htab', Hl', map_to_list_empty.
  - intros es s'' Hrun.
    assert (Hst : sweeper s' = Stopped) by congruence.
    destruct (run_stopped zero es s' s'' Hwf' Hst Hrun) as (_ & Hst'' & Htk'').
    split_and!; [done|congruence|].
    intros now. unfold tick. by rewrite Hst''.
Qed.


End Claims.

Section ClaimsV010.
Context `{Countable K, !Key K} {V : Type}.
Variable zero : V.

Local Abbreviation St := (State K (V010.item V)).

Implicit Types (s : St) (k key : K) (it : V010.item V).

Ltac run_monad :=
  unfold defer, bind, ret, get_entries, get_ttl, get_state,
    RLock, RUnlock, Lock, Unlock, map_index, map_len, map_delete,
    map_clear, map_assign, new_item, load, set_lock, set_maps, set_items,
    unhashable;
  simpl.

Ltac open_wf s Hwf t ls Ht Hk Hl :=
  destruct s as [its ms e ttl0 l sw tk];
  unfold V010.wf, V010.map_ok, V010.table, V010.loose_table, map_of in *;
  simpl in *;
  destruct Hwf as (-> & [[t ls] Ht] & Hk & Hl); rewrite ?Ht in *;
  simpl in *.

(** C9.  In version 0.1.0 [Delete] of an absent key releases the
    mutex twice.  Called with the lock free and a key that the index
    expression does not find (a key that can be hashed and has no
    entry, or a key that is not equal to itself), the statements after
    the [defer] return [false] with the lock released again by the
    explicit [Unlock]; the deferred [Unlock] then finds the mutex
    unlocked, which is a fatal runtime error, so the call does not
    return.  This happens for every key that can be hashed on a freshly
    created map, where every key is absent (a key that cannot be
    hashed panics in the index expression instead).  A present key is
    deleted and [true] returned. *)
Theorem Delete_absent_key_unlocks_twice s key :
  lock s = Unlocked →
  key_class key ≠ Unhashable →
  (key_class key = Usable → keyed (map_of (entries s) s) !! key = None) →
  (Lock ;;; V010.Delete_body key) s = Ok false s ∧
  Unlock s = Fault "sync: Unlock of unlocked RWMutex" ∧
  V010.Delete key s = Fault "sync: Unlock of unlocked RWMutex" ∧
  (∀ size ttl0 pruneInterval key',
     ∃ s0, V010.New (K:=K) (V:=V) size ttl0 pruneInterval = Ok tt s0 ∧
           (key_class key' ≠ Unhashable →
            V010.Delete key' s0 = Fault "sync: Unlock of unlocked RWMutex") ∧
           (key_class key' = Unhashable →
            V010.Delete key' s0 = unhashable)) ∧
  (∀ key' v now,
     key' ≠ key → key_class key' = Usable →
     is_Some (maps s !! entries s) →
     ∃ s1 s2, V010.Put key' v now s = Ok tt s1 ∧
              V010.Delete key s1 = Fault "sync: Unlock of unlocked RWMutex" ∧
              V010.Delete key' s1 = Ok true s2 ∧
              keyed (map_of (entries s2) s2)
              = delete key' (keyed (map_of (entries s1) s1)) ∧
              loose (map_of (entries s2) s2) = loose (map_of (entries s1) s1)).
Proof.
  intros Hl Hh Hk.
  destruct s as [its ms e ttl0 l sw tk]. simpl in *. subst l.
  unfold map_of in Hk. simpl in Hk.
  split_and!.
  - unfold V010.Delete_body. run_monad. unfold map_of. simpl.
    destruct (key_class key); [|done..]. by rewrite Hk.
  - done.
  - unfold V010.Delete, V010.Delete_body. run_monad. unfold map_of. simpl.
    destruct (key_class key); [|done..]. by rewrite Hk.
  - intros size ttl1 pi key'. eexists. split; [reflexivity|].
    unfold V010.Delete, V010.Delete_body. run_monad. unfold map_of. simpl.
    rewrite lookup_singleton_eq. simpl.
    destruct (key_class key'); split; done.
  - intros key' v now Hne Hc' [[t ls] Ht].
    unfold V010.Put, V010.Delete, V010.Delete_body. run_monad.
    unfold map_of in *. simpl in *. rewrite Ht in *. simpl in *.
    rewrite Hc'. simpl.
    eexists _, _. split; [reflexivity|]. simpl.
    rewrite !lookup_insert_eq. simpl. split.
    + destruct (key_class key); [|done..].
      by rewrite lookup_insert_ne, Hk.
    + repeat (rewrite lookup_insert_eq; simpl).
      split; [reflexivity|]. simpl. by rewrite lookup_insert_eq.
Qed.

(** *** The methods of version 0.1.0 *)

Lemma V010_New_wf size ttl0 pruneInterval :
  ∃ s0, V010.New (K:=K) (V:=V) size ttl0 pruneInterval = Ok tt s0 ∧
        V010.wf s0 ∧ V010.table s0 = ∅ ∧ V010.loose_table s0 = [] ∧
        ttl s0 = ttl0 `quot` 1000000000 ∧
        sweeper s0 = Spawned pruneInterval.
Proof.
  eexists. split; [reflexivity|].
  unfold V010.wf, V010.map_ok, V010.table, V010.loose_table, map_of. simpl.
  rewrite lookup_singleton_eq. simpl. split_and!; try done.
  intros k p Hq. by apply elem_of_nil in Hq.
Qed.

Lemma V010_table_usable s k it :
  V010.wf s → V010.table s !! k = Some it → key_class k = Usable.
Proof.
  intros (_ & _ & Hk & _). unfold V010.table. rewrite lookup_omap.
  destruct (keyed (map_of (entries s) s) !! k) as [p|] eqn:E; simpl; [|done].
  by destruct (Hk _ _ E).
Qed.

Lemma V010_Get_exec s key :
  V010.wf s →
  key_class key ≠ Unhashable →
  V010.Get zero key s =
    Ok (match V010.table s !! key with
        | Some it => V010.value it
        | None => zero
        end) s.
Proof.
  intros Hwf Hc. open_wf s Hwf t ls Ht Hk Hl.
  unfold V010.Get. run_monad. unfold map_of. simpl. rewrite Ht. simpl.
  rewrite lookup_omap.
  destruct (key_class key) eqn:Ek; [| |done]; simpl.
  - destruct (t !! key) as [p|] eqn:E; simpl; [|done].
    destruct (Hk _ _ E) as [_ [it Hit]]. by rewrite Hit.
  - destruct (t !! key) as [p|] eqn:E; simpl; [|done].
    destruct (Hk _ _ E). congruence.
Qed.

Lemma V010_Put_exec s key v now :
  V010.wf s →
  key_class key = Usable →
  ∃ s', V010.Put key v now s = Ok tt s' ∧ V010.wf s' ∧
        ttl s' = ttl s ∧ sweeper s' = sweeper s ∧
        V010.table s' = <[key := V010.Item v now]> (V010.table s) ∧
        V010.loose_table s' = V010.loose_table s.
Proof.
  intros Hwf Hc. open_wf s Hwf t ls Ht Hk Hl.
  unfold V010.Put. run_monad. rewrite Ht, Hc. simpl.
  set (p := fresh (dom its)).
  assert (Hfresh : its !! p = None).
  { apply not_elem_of_dom. apply is_fresh. }
  assert (Hkv : ∀ k q, t !! k = Some q → is_Some (its !! q)).
  { intros k q Hq. by destruct (Hk k q Hq). }
  assert (Hlv : ∀ k q, (k, q) ∈ ls → is_Some (its !! q)).
  { intros k q Hq. by destruct (Hl k q Hq). }
  assert (Hitems : ∀ q it, its !! q = Some it →
                           <[p := V010.Item v now]> its !! q = Some it).
  { intros q it Hq. rewrite lookup_insert_ne; [done|]. intros <-. congruence. }
  eexists. split; [reflexivity|]. simpl.
  rewrite !lookup_insert_eq. simpl. split_and!; try done.
  - intros k q. rewrite lookup_insert. case_decide as Hkey.
    + intros [= <-]. subst k. rewrite lookup_insert_eq. eauto.
    + intros Hq. destruct (Hk _ _ Hq) as [? [it Hit]].
      split; [done|]. rewrite (Hitems _ _ Hit). eauto.
  - intros k q Hq. destruct (Hl _ _ Hq) as [? [it Hit]].
    split; [done|]. rewrite (Hitems _ _ Hit). eauto.
  - apply map_eq. intros k. rewrite lookup_omap.
    rewrite !lookup_insert. case_decide as Hkey; simpl.
    + by rewrite lookup_insert_eq.
    + rewrite lookup_omap. destruct (t !! k) as [q|] eqn:E; simpl; [|done].
      destruct (Hkv _ _ E) as [it Hit]. by rewrite (Hitems _ _ Hit), Hit.
  - by apply loose_items_insert_fresh.
Qed.

Lemma V010_sweep_exec s now :
  V010.wf s →
  ∃ s', V010.sweep now s = Ok tt s' ∧ V010.wf s' ∧
        ttl s' = ttl s ∧ sweeper s' = sweeper s ∧
        V010.table s' =
          filter (λ kv, wrap64 (now - V010.lastAccess kv.2) < ttl s)
            (V010.table s) ∧
        V010.loose_table s' = V010.loose_table s.
Proof.
  intros Hwf. unfold V010.sweep. unfold bind at 1. unfold get_state.
  assert (Hcov : ∀ k, is_Some (keyed (map_of (entries s) s) !! k) →
                      k ∈ (range_order (entries s) s).*1).
  { intros k [p Hk]. unfold range_order. rewrite fmap_app, elem_of_app. left.
    apply list_elem_of_fmap. exists (k, p). split; [done|].
    by apply elem_of_map_to_list. }
  revert Hcov. generalize (range_order (entries s) s). intros order Hcov.
  open_wf s Hwf t ls Ht Hk Hl.
  destruct (for_range_prune
              (λ it : V010.item V, wrap64 (now - V010.lastAccess it) >= ttl0)
              order t ls its ms e ttl0 WLocked sw tk Ht Hk Hl)
    as (t' & Hrun & Hlook).
  unfold V010.sweep_in, bind at 1 2 3 4. unfold Lock, set_lock, get_entries,
    get_ttl. simpl. rewrite Hrun. unfold Unlock, set_lock. simpl.
  eexists. split; [reflexivity|]. simpl.
  rewrite !lookup_insert_eq. simpl. split_and!; try done.
  - intros k p. rewrite Hlook. intros Hq.
    destruct (t !! k) as [q|] eqn:E; simpl in Hq; [|done].
    destruct (Hk _ _ E) as [? [it Hit]]. rewrite Hit in Hq. simpl in Hq.
    case_decide; [done|]. injection Hq as <-. eauto.
  - apply map_eq. intros k. rewrite map_lookup_filter, !lookup_omap, Hlook.
    destruct (t !! k) as [q|] eqn:E; simpl; [|done].
    destruct (Hk _ _ E) as [_ [it Hit]]. rewrite Hit. simpl.
    assert (Hin : k ∈ order.*1) by (apply Hcov; eauto).
    case_decide as Hd; simpl.
    + rewrite option_guard_False; [done|]. simpl. lia.
    + rewrite Hit. simpl. rewrite option_guard_True; [done|]. simpl.
      destruct (decide (wrap64 (now - V010.lastAccess it) < ttl0)); [done|].
      exfalso. apply Hd. split; [done|lia].
Qed.

End ClaimsV010.

(** * Further properties of version 0.1.1 *)

Section More.
Context `{Countable K, !Key K} {V : Type}.
Variable zero : V.

Local Abbreviation St := (State K (item V)).

Implicit Types (s : St) (k key : K) (it : item V).

Lemma physical_elem s k it :
  (k, it) ∈ physical s ↔ table s !! k = Some it ∨ (k, it) ∈ loose_table s.
Proof. unfold physical. by rewrite elem_of_app, elem_of_map_to_list. Qed.

Lemma physical_length s :
  length (physical s) = (size (table s) + length (loose_table s))%nat.
Proof. unfold physical. by rewrite length_app, length_map_to_list. Qed.

(** What [Put] leaves physically in the map under its key. *)
Lemma Put_physical s key v now s' :
  wf s → Put key v now s = Ok tt s' →
  wf s' ∧ same_control s s' ∧
  (key, Item v (add_unix_nano now (ttl s))) ∈ physical s' ∧
  (key_class key = Usable →
   table s' !! key = Some (Item v (add_unix_nano now (ttl s)))).
Proof.
  intros Hwf Hput.
  destruct (key_class key) eqn:Ek.
  - destruct (Put_exec s key v now Hwf) as (s1 & Hrun & Hwf1 & Hc & _ & Htab & _).
    { congruence. }
    rewrite Hrun in Hput. injection Hput as <-.
    simpl in Htab. rewrite Ek in Htab.
    assert (table s1 !! key = Some (Item v (add_unix_nano now (ttl s)))).
    { by rewrite Htab, lookup_insert_eq. }
    split_and!; try done. apply physical_elem. by left.
  - destruct (Put_exec s key v now Hwf) as (s1 & Hrun & Hwf1 & Hc & _ & _ & Hl).
    { congruence. }
    rewrite Hrun in Hput. injection Hput as <-.
    simpl in Hl. rewrite Ek in Hl.
    split_and!; try done. apply physical_elem. right.
    rewrite Hl, elem_of_app. right. by apply list_elem_of_singleton.
  - destruct (unhashable_faults zero s key Hwf Ek) as (_ & _ & _ & Hf).
    by rewrite Hf in Hput.
Qed.

(** X1.  For a key that can be hashed [GetOrZero] returns the value
    [Get] returns, and neither changes the state.  The flag of [Get] is
    [true] exactly for the keys the index expression finds, the keys of
    the table; for a key that is not there both return the zero value,
    so [GetOrZero] alone does not tell an absent key from a stored zero
    value.  A key that is not equal to itself is never found, whatever
    was put under it.  For a key that cannot be hashed both panic. *)
Theorem GetOrZero_is_value_of_Get s key :
  wf s →
  (key_class key ≠ Unhashable →
   ∃ v ok,
     Get zero key s = Ok (v, ok) s ∧
     GetOrZero zero key s = Ok v s ∧
     (ok = true ↔ is_Some (table s !! key)) ∧
     (table s !! key = None → v = zero ∧ ok = false) ∧
     (∀ it, table s !! key = Some it → v = value it) ∧
     (key_class key = Irreflexive → v = zero ∧ ok = false)) ∧
  (key_class key = Unhashable →
   Get zero key s = unhashable ∧ GetOrZero zero key s = unhashable).
Proof.
  intros Hwf. split.
  - intros Hh. rewrite Get_exec, GetOrZero_exec by done.
    destruct (table s !! key) as [it|] eqn:E.
    + exists (value it), true. split_and!; try done.
      * intros it' Hit'. by injection Hit' as <-.
      * intros Hc. destruct (table_lookup_Some s key it Hwf E). congruence.
    + exists zero, false. split_and!; done.
  - intros Hu. by destruct (unhashable_faults zero s key Hwf Hu) as (? & ? & _).
Qed.

(** X2.  [Clear] returns from every state and empties the map: no
    entry is left under any key, [Len] is 0 and [Get] finds no key (it
    still panics on a key that cannot be hashed).  Unlike [Close] it
    leaves the goroutine and its ticker as they are.  Clearing again
    changes nothing. *)
Theorem Clear_empties_table s :
  wf s →
  ∃ s', Clear s = Ok tt s' ∧ wf s' ∧
        sweeper s' = sweeper s ∧ ticker s' = ticker s ∧
        table s' = ∅ ∧ loose_table s' = [] ∧ physical s' = [] ∧
        Len s' = Ok 0%nat s' ∧
        (∀ key, key_class key ≠ Unhashable →
                Get zero key s' = Ok (zero, false) s') ∧
        (∀ key, key_class key = Unhashable → Get zero key s' = unhashable) ∧
        Clear s' = Ok tt s'.
Proof.
  intros Hwf.
  destruct (Clear_exec s Hwf)
    as (s' & Hrun & Hwf' & (He & _ & Hsw & Htk) & _ & Htab & Hl & Hagain).
  exists s'. split_and!; try done.
  - unfold physical. by rewrite Htab, Hl, map_to_list_empty.
  - by rewrite Len_exec, Htab, Hl, map_size_empty.
  - intros key Hh. by rewrite Get_exec, Htab, lookup_empty.
  - intros key Hu. by destruct (unhashable_faults zero s' key Hwf' Hu) as (? & _).
Qed.

(** X3.  [Close] cannot be called twice: once a [Close] has returned,
    the goroutine is gone, nobody receives from [stop], and a second
    [Close] blocks in its send without reaching [Clear].  The other
    methods still return: an entry put after the first [Close], under a
    key that can be hashed, is still in the map when the second one
    blocks, and [Get] returns it when the key is equal to itself. *)
Theorem Close_twice_blocks s s' :
  wf s →
  Close s = Ok tt s' →
  Close s' = Blocked ∧
  ∀ key v now,
    key_class key ≠ Unhashable →
    ∃ s'', Put key v now s' = Ok tt s'' ∧
           (key, Item v (add_unix_nano now (ttl s'))) ∈ physical s'' ∧
           (key_class key = Usable → Get zero key s'' = Ok (v, true) s'') ∧
           Close s'' = Blocked.
Proof.
  intros Hwf Hclose. unfold Close, bind in Hclose.
  destruct (send_stop s) as [[] s1| |] eqn:E1; [|done..].
  destruct (send_stop_wf _ _ Hwf E1) as (Hwf1 & _ & _ & _ & _ & Hst1 & _).
  destruct (Clear_exec s1 Hwf1) as (s2 & Hc & Hwf2 & (_ & _ & Hst2 & _) & _).
  rewrite Hc in Hclose. injection Hclose as <-.
  assert (Hst : sweeper s2 = Stopped) by congruence.
  split.
  - unfold Close, bind, send_stop. by rewrite Hst.
  - intros key v now Hh.
    destruct (Put_exec s2 key v now Hwf2 Hh) as (s3 & Hput & _).
    destruct (Put_physical s2 key v now s3 Hwf2 Hput)
      as (Hwf3 & (_ & _ & Hst3 & _) & Hin & Hk).
    exists s3. split_and!; try done.
    + intros Hc'. by rewrite Get_exec, (Hk Hc').
    + unfold Close, bind, send_stop. by rewrite Hst3, Hst.
Qed.

(** X4.  After [Close] nothing is swept any more: an entry put into the
    closed map stays in it through any number of ticks at any times,
    also long after its deadline, and [Get] returns its value when the
    key is equal to itself. *)
Theorem entries_after_Close_never_expire s s1 key v now ticks :
  wf s →
  Close s = Ok tt s1 →
  key_class key ≠ Unhashable →
  ∃ s2, Put key v now s1 = Ok tt s2 ∧
        run zero (ETick <$> ticks) s2 = Ok tt s2 ∧
        (key, Item v (add_unix_nano now (ttl s1))) ∈ physical s2 ∧
        (key_class key = Usable → Get zero key s2 = Ok (v, true) s2).
Proof.
  intros Hwf Hclose Hh. unfold Close, bind in Hclose.
  destruct (send_stop s) as [[] s0| |] eqn:E1; [|done..].
  destruct (send_stop_wf _ _ Hwf E1) as (Hwf0 & _ & _ & _ & _ & Hst0 & _).
  destruct (Clear_exec s0 Hwf0) as (s1' & Hc & Hwf1 & (_ & _ & Hst1 & _) & _).
  rewrite Hc in Hclose. injection Hclose as <-.
  destruct (Put_exec s1' key v now Hwf1 Hh) as (s2 & Hput & _).
  destruct (Put_physical s1' key v now s2 Hwf1 Hput)
    as (Hwf2 & (_ & _ & Hst2 & _) & Hin & Hk).
  assert (Hst : sweeper s2 = Stopped) by congruence.
  exists s2. split_and!; try done.
  - induction ticks as [|t ticks IH]; [done|].
    simpl. unfold bind, tick. by rewrite Hst.
  - intros Hc'. by rewrite Get_exec, (Hk Hc').
Qed.

(** X5.  Two ticks in a row leave what one tick at the later of the two
    times leaves; a tick that comes with a time not after the previous
    one's deletes nothing.  Neither touches the entries under keys
    that are not equal to themselves. *)
Theorem ticks_compose s a b :
  wf s →
  sweeper s = Running →
  ∃ s1 s2,
    tick a s = Ok tt s1 ∧ tick b s1 = Ok tt s2 ∧
    table s2 = filter (λ kv, Z.max a b < expires kv.2) (table s) ∧
    (b <= a → table s2 = table s1) ∧
    loose_table s2 = loose_table s.
Proof.
  intros Hwf Hrun.
  destruct (tick_exec s a Hwf)
    as (s1 & Ht1 & Hwf1 & (_ & _ & Hsw1 & _) & _ & Htab1 & Hl1).
  destruct (tick_exec s1 b Hwf1) as (s2 & Ht2 & _ & _ & _ & Htab2 & Hl2).
  simpl in Htab1, Htab2.
  rewrite Hrun in Htab1. rewrite Hsw1, Hrun in Htab2.
  exists s1, s2. split_and!; try done.
  - rewrite Htab2, Htab1. apply map_eq. intros k.
    rewrite !map_lookup_filter.
    destruct (table s !! k) as [it|]; simpl; [|done].
    repeat (case_guard; simpl in *; try done); lia.
  - intros Hle. rewrite Htab2, Htab1. apply map_eq. intros k.
    rewrite !map_lookup_filter.
    destruct (table s !! k) as [it|]; simpl; [|done].
    repeat (case_guard; simpl in *; try done); lia.
  - congruence.
Qed.

(** X6.  The map [Copy] returned is a snapshot: whatever methods are
    called on the live map afterwards and whatever ticks come, the
    returned map keeps the bindings, the values and the expirations
    the live map had at the moment of the call. *)
Theorem snapshot_is_stable s snap s1 es s2 :
  wf s →
  Copy s = Ok snap s1 →
  run zero es s1 = Ok tt s2 →
  map_of snap s2 = map_of (entries s) s ∧
  table_of snap s2 = table s ∧
  loose_of snap s2 = loose_table s.
Proof.
  intros Hwf Hcopy Hrun.
  destruct (Copy_exec s Hwf)
    as (snap' & s1' & Hc & Hwf1 & (He & _) & _ & Hi & Hfresh & Hm & _).
  rewrite Hc in Hcopy. injection Hcopy as -> ->.
  assert (Hne : snap ≠ entries s1).
  { rewrite He. intros ->. destruct Hwf as (_ & [? Hs] & _). congruence. }
  assert (Hs1 : maps s1 !! snap = Some (map_of (entries s) s)).
  { by rewrite Hm, lookup_insert_eq. }
  destruct (run_store zero es s1 s2 Hwf1 Hrun) as [Hitems Hmaps].
  assert (Hs2 : map_of snap s2 = map_of (entries s) s).
  { unfold map_of at 1. by rewrite (Hmaps _ _ Hne Hs1). }
  destruct Hwf as (_ & _ & Hk & Hl).
  split_and!; [done| |].
  - unfold table_of, table, table_of. rewrite Hs2. apply map_eq. intros k.
    rewrite !lookup_omap.
    destruct (keyed (map_of (entries s) s) !! k) as [p|] eqn:E; simpl; [|done].
    destruct (Hk _ _ E) as [_ [it Hit]].
    rewrite Hit. apply Hitems. by rewrite Hi.
  - unfold loose_of, loose_table, loose_of. rewrite Hs2.
    revert Hl. generalize (loose (map_of (entries s) s)).
    induction l as [|[k p] l IH]; intros Hl; [done|].
    rewrite !(omap_app _ [(k, p)] l). f_equal.
    + simpl. destruct (Hl k p) as [_ [it Hit]]; [left|].
      rewrite Hit. rewrite (Hitems p it); [done|]. by rewrite Hi.
    + apply IH. intros k' p' Hin. apply Hl. by right.
Qed.

(** X7.  For a key that is equal to itself and not in the table, [Put]
    followed by [Delete] of that key gives the map back: [Delete]
    returns [true], the table and [Len] are what they were before the
    [Put].  For a key that is not equal to itself [Delete] does not
    find what [Put] added: it returns [false], and [Len] stays one
    larger than before. *)
Theorem Put_then_Delete_restores s key v now :
  wf s →
  table s !! key = None →
  (key_class key = Usable →
   ∃ s1 s2,
     Put key v now s = Ok tt s1 ∧
     Delete key s1 = Ok true s2 ∧
     table s2 = table s ∧ loose_table s2 = loose_table s ∧
     Len s2 = Ok (length (physical s)) s2) ∧
  (key_class key = Irreflexive →
   ∃ s1,
     Put key v now s = Ok tt s1 ∧
     Delete key s1 = Ok false s1 ∧
     Len s1 = Ok (S (length (physical s))) s1).
Proof.
  intros Hwf Hnone. split.
  - intros Hc. assert (Hh : key_class key ≠ Unhashable) by congruence.
    destruct (Put_exec s key v now Hwf Hh)
      as (s1 & Hput & Hwf1 & _ & _ & Htab1 & Hl1).
    destruct (Delete_exec s1 key Hwf1 Hh)
      as (s2 & Hdel & Hwf2 & _ & _ & Htab2 & Hl2 & _).
    simpl in Htab1, Htab2, Hl1. rewrite Hc in Htab1, Htab2, Hl1.
    assert (Htab : table s2 = table s).
    { rewrite Htab2, Htab1, delete_insert_eq. by apply delete_id. }
    exists s1, s2. split_and!; try done.
    + rewrite Hdel. f_equal. apply bool_decide_eq_true_2.
      rewrite Htab1, lookup_insert_eq. eauto.
    + congruence.
    + rewrite Len_exec, physical_length, Htab, Hl2, Hl1 by done. done.
  - intros Hc. assert (Hh : key_class key ≠ Unhashable) by congruence.
    destruct (Put_exec s key v now Hwf Hh)
      as (s1 & Hput & Hwf1 & _ & _ & Htab1 & Hl1).
    simpl in Htab1, Hl1. rewrite Hc in Htab1, Hl1.
    assert (Hnone1 : table s1 !! key = None) by (by rewrite Htab1).
    destruct (Delete_exec s1 key Hwf1 Hh)
      as (s2 & Hdel & _ & _ & _ & _ & _ & Hid).
    exists s1. split_and!; try done.
    + rewrite Hdel, (Hid Hnone1). f_equal.
      apply bool_decide_eq_false_2. rewrite Hnone1. by intros [? ?].
    + rewrite Len_exec, physical_length, Htab1, Hl1, length_app by done.
      simpl. do 2 f_equal. lia.
Qed.

(** X8.  [Put] and [Delete] of one key leave the other keys alone: for
    every other key [Get] and [GetOrZero] return after them what they
    returned before. *)
Theorem Put_Delete_frame s key key' v now :
  wf s →
  key' ≠ key →
  key_class key ≠ Unhashable →
  (∃ s1, Put key v now s = Ok tt s1 ∧
         table s1 !! key' = table s !! key' ∧
         returned (Get zero key' s1) = returned (Get zero key' s) ∧
         returned (GetOrZero zero key' s1) = returned (GetOrZero zero key' s)) ∧
  (∃ b s1, Delete key s = Ok b s1 ∧
           table s1 !! key' = table s !! key' ∧
           returned (Get zero key' s1) = returned (Get zero key' s) ∧
           returned (GetOrZero zero key' s1) = returned (GetOrZero zero key' s)).
Proof.
  intros Hwf Hne Hh.
  assert (Hread : ∀ s1, wf s1 → table s1 !! key' = table s !! key' →
    returned (Get zero key' s1) = returned (Get zero key' s) ∧
    returned (GetOrZero zero key' s1) = returned (GetOrZero zero key' s)).
  { intros s1 Hwf1 Hk. destruct (key_class key') eqn:Ek.
    - rewrite !Get_exec, !GetOrZero_exec by (done || congruence). simpl.
      by rewrite Hk.
    - rewrite !Get_exec, !GetOrZero_exec by (done || congruence). simpl.
      by rewrite Hk.
    - destruct (unhashable_faults zero s key' Hwf Ek) as (-> & -> & _).
      by destruct (unhashable_faults zero s1 key' Hwf1 Ek) as (-> & -> & _). }
  split.
  - destruct (Put_exec s key v now Hwf Hh)
      as (s1 & Hput & Hwf1 & _ & _ & Htab1 & _).
    assert (Hk : table s1 !! key' = table s !! key').
    { rewrite Htab1. simpl. destruct (key_class key); [|done..].
      by rewrite lookup_insert_ne. }
    exists s1. destruct (Hread s1 Hwf1 Hk). by split_and!.
  - destruct (Delete_exec s key Hwf Hh)
      as (s1 & Hdel & Hwf1 & _ & _ & Htab1 & _).
    assert (Hk : table s1 !! key' = table s !! key').
    { rewrite Htab1. simpl. destruct (key_class key); [|done..].
      by rewrite lookup_delete_ne. }
    eexists _, s1. destruct (Hread s1 Hwf1 Hk). by split_and!.
Qed.

(** X9.  With a time-to-live that is zero or negative an entry under a
    key equal to itself is expired as soon as it is written: the first
    tick whose time is not before the [Put] deletes it, however soon it
    comes. *)
Theorem nonpositive_ttl_expires_at_once s key v now T :
  wf s →
  key_class key = Usable →
  sweeper s = Running →
  ttl s <= 0 →
  int64_range (now + ttl s) →
  now <= T →
  ∃ s1 s2,
    Put key v now s = Ok tt s1 ∧
    Get zero key s1 = Ok (v, true) s1 ∧
    tick T s1 = Ok tt s2 ∧
    (∀ it, (key, it) ∉ physical s2) ∧
    Get zero key s2 = Ok (zero, false) s2.
Proof.
  intros Hwf Hc Hrun Httl Hfit HT.
  assert (Hh : key_class key ≠ Unhashable) by congruence.
  destruct (Put_exec s key v now Hwf Hh)
    as (s1 & Hput & Hwf1 & (_ & _ & Hsw1 & _) & _ & Htab1 & _).
  destruct (tick_exec s1 T Hwf1) as (s2 & Htick & Hwf2 & _ & _ & Htab2 & _).
  simpl in Htab1, Htab2. rewrite Hc in Htab1. rewrite Hsw1, Hrun in Htab2.
  assert (Hgone : table s2 !! key = None).
  { rewrite Htab2. apply map_lookup_filter_None_2. right.
    intros it. rewrite Htab1, lookup_insert_eq. intros [= <-]. simpl.
    rewrite add_unix_nano_exact by done. lia. }
  exists s1, s2. split_and!; try done.
  - by rewrite Get_exec, Htab1, lookup_insert_eq.
  - intros it [Hin|Hin]%physical_elem; [congruence|].
    pose proof (loose_table_irreflexive s2 key it Hwf2 Hin). congruence.
  - by rewrite Get_exec, Hgone.
Qed.

(** X10.  The deadline is kept in an [int64].  When [now + ttl] is
    larger than the largest [int64], for instance with the largest
    duration as time-to-live, the stored deadline is [now + ttl - 2^64],
    which lies before [now]: an entry under a key equal to itself is
    deleted by the first tick whose time is not before the [Put], long
    before [ttl] has passed. *)
Theorem deadline_overflow_expires_at_once s key v now T :
  wf s →
  key_class key = Usable →
  sweeper s = Running →
  int64_range now →
  int64_range (ttl s) →
  int64_max < now + ttl s →
  now <= T →
  ∃ s1 s2,
    Put key v now s = Ok tt s1 ∧
    table s1 !! key = Some (Item v (now + ttl s - 2 ^ 64)) ∧
    now + ttl s - 2 ^ 64 < now ∧
    tick T s1 = Ok tt s2 ∧
    (∀ it, (key, it) ∉ physical s2) ∧
    Get zero key s2 = Ok (zero, false) s2.
Proof.
  intros Hwf Hc Hrun Hnow Httl Hover HT.
  assert (Hh : key_class key ≠ Unhashable) by congruence.
  pose proof (add_unix_nano_overflow now (ttl s) Hnow Httl Hover) as Hwrap.
  assert (Hlt : now + ttl s - 2 ^ 64 < now).
  { unfold int64_range, int64_min, int64_max in *. lia. }
  destruct (Put_exec s key v now Hwf Hh)
    as (s1 & Hput & Hwf1 & (_ & _ & Hsw1 & _) & _ & Htab1 & _).
  destruct (tick_exec s1 T Hwf1) as (s2 & Htick & Hwf2 & _ & _ & Htab2 & _).
  simpl in Htab1, Htab2. rewrite Hc, Hwrap in Htab1.
  rewrite Hsw1, Hrun in Htab2.
  assert (Hgone : table s2 !! key = None).
  { rewrite Htab2. apply map_lookup_filter_None_2. right.
    intros it. rewrite Htab1, lookup_insert_eq. intros [= <-]. simpl. lia. }
  exists s1, s2. split_and!; try done.
  - by rewrite Htab1, lookup_insert_eq.
  - intros it [Hin|Hin]%physical_elem; [congruence|].
    pose proof (loose_table_irreflexive s2 key it Hwf2 Hin). congruence.
  - by rewrite Get_exec, Hgone.
Qed.

(** X11.  For a key equal to itself expiration is enforced by the next
    tick, whatever happened in between: after a [Put], and any calls and
    ticks that do not write the key again, a tick of the running
    goroutine at or after the deadline leaves no entry under the key in
    the map. *)
Theorem expired_entry_is_swept s key v now es s1 s2 T :
  wf s →
  key_class key = Usable →
  Put key v now s = Ok tt s1 →
  Forall (not_put key) es →
  run zero es s1 = Ok tt s2 →
  sweeper s2 = Running →
  add_unix_nano now (ttl s) <= T →
  ∃ s3, tick T s2 = Ok tt s3 ∧
        table s3 !! key = None ∧
        (∀ it, (key, it) ∉ physical s3) ∧
        Get zero key s3 = Ok (zero, false) s3.
Proof.
  intros Hwf Hc Hput Hes Hrun Hsw HT.
  assert (Hh : key_class key ≠ Unhashable) by congruence.
  destruct (Put_physical s key v now s1 Hwf Hput) as (Hwf1 & _ & _ & Hk1).
  specialize (Hk1 Hc).
  destruct (run_wf zero es s1 s2 Hwf1 Hrun) as (Hwf2 & _).
  destruct (tick_exec s2 T Hwf2) as (s3 & Htick & Hwf3 & _ & _ & Htab3 & _).
  simpl in Htab3. rewrite Hsw in Htab3.
  assert (Hgone : table s3 !! key = None).
  { rewrite Htab3. apply map_lookup_filter_None. right. intros it Hit.
    pose proof (run_last_put zero es s1 s2 key it Hwf1 Hrun Hit) as Hlast.
    rewrite (last_put_not_put key es Hes) in Hlast.
    rewrite Hk1 in Hlast. injection Hlast as <-.
    simpl. lia. }
  exists s3. split_and!; try done.
  - intros it [Hin|Hin]%physical_elem; [congruence|].
    pose proof (loose_table_irreflexive s3 key it Hwf3 Hin). congruence.
  - by rewrite Get_exec, Hgone.
Qed.

(** X12.  No premature eviction: after a [Put] under a key equal to
    itself, as long as the key is not written or deleted, the map is
    not cleared or closed, and every tick comes before the stored
    deadline, [Get] returns the value put, with [true], whatever else
    is called in between. *)
Theorem no_premature_eviction s key v now es s1 s2 :
  wf s →
  key_class key = Usable →
  Put key v now s = Ok tt s1 →
  Forall (harmless key (add_unix_nano now (ttl s))) es →
  run zero es s1 = Ok tt s2 →
  Get zero key s2 = Ok (v, true) s2 ∧
  GetOrZero zero key s2 = Ok v s2.
Proof.
  intros Hwf Hc Hput Hes Hrun.
  assert (Hh : key_class key ≠ Unhashable) by congruence.
  destruct (Put_physical s key v now s1 Hwf Hput) as (Hwf1 & _ & _ & Hk).
  specialize (Hk Hc).
  destruct (run_harmless zero es s1 s2 key _ Hwf1 Hk Hes Hrun) as (Hwf2 & Hk2).
  by rewrite Get_exec, GetOrZero_exec, Hk2.
Qed.

(** X13.  Between two calls nobody holds the lock, and every method
    called with a key that can be hashed, and every tick, returns from
    such a state, without a fault, to such a state: the lock is
    released on every path.  The exceptions are those of the goroutine:
    [Close] when the goroutine has already returned, and the start of a
    goroutine whose interval is not positive.  A method called with a
    key that cannot be hashed panics. *)
Theorem methods_return_and_release_lock e s :
  wf s →
  startable s →
  (e = EClose → sweeper s ≠ Stopped) →
  (hashable e →
   ∃ s', step zero e s = Ok tt s' ∧ wf s' ∧ lock s' = Unlocked ∧
         startable s') ∧
  (¬ hashable e → step zero e s = unhashable).
Proof.
  intros Hwf Hst Hclose.
  assert (Hsame : ∀ s', same_control s s' → startable s').
  { intros s' (_ & _ & Hsw & _) d. rewrite Hsw. apply Hst. }
  assert (Hlock : ∀ s', wf s' → lock s' = Unlocked) by (by intros ? (? & _)).
  assert (Hun : ∀ key, ¬ key_class key ≠ Unhashable →
                       key_class key = Unhashable).
  { intros key. destruct (key_class key); try done; intros []; done. }
  split.
  - intros Hh.
    destruct e as [key v now|key|key|key| | | | | |now]; simpl in *.
    + destruct (Put_exec s key v now Hwf Hh) as (s' & -> & ? & ? & _).
      eauto 10.
    + unfold bind. rewrite Get_exec by done. eauto 10.
    + unfold bind. rewrite GetOrZero_exec by done. eauto 10.
    + unfold bind.
      destruct (Delete_exec s key Hwf Hh) as (s' & -> & ? & ? & _).
      eauto 10.
    + destruct (Clear_exec s Hwf) as (s' & -> & ? & ? & _). eauto 10.
    + unfold bind. rewrite Len_exec by done. eauto 10.
    + unfold bind.
      destruct (Copy_exec s Hwf) as (snap & s' & -> & ? & ? & _). eauto 10.
    + destruct (send_stop_exec s Hwf (Hclose eq_refl) Hst)
        as (s1 & Hsend & Hwf1 & _ & _ & _ & _ & Hst1 & _).
      destruct (Clear_exec s1 Hwf1)
        as (s' & Hc & Hwf' & (_ & _ & Hsw' & _) & _).
      exists s'. unfold Close, bind. rewrite Hsend. split_and!; eauto.
      intros d. rewrite Hsw', Hst1. discriminate.
    + destruct (sweeper_start_exec s Hwf Hst)
        as (s' & -> & Hwf' & _ & _ & _ & _ & Hsw).
      exists s'. split_and!; eauto.
      intros d. rewrite Hsw. destruct (sweeper s); try discriminate.
    + destruct (tick_exec s now Hwf) as (s' & -> & ? & ? & _). eauto 10.
  - intros Hn.
    destruct e as [key v now|key|key|key| | | | | |now]; simpl in *;
      try (by destruct Hn);
      apply Hun in Hn;
      destruct (unhashable_faults zero s key Hwf Hn) as (Hg & Hgz & Hd & Hp);
      unfold bind; by rewrite ?Hp, ?Hg, ?Hgz, ?Hd.
Qed.

End More.

(** * Further properties of version 0.1.0 *)

Section MoreV010.
Context `{Countable K, !Key K} {V : Type}.
Variable zero : V.

Local Abbreviation St := (State K (V010.item V)).

Implicit Types (s : St) (k key : K) (it : V010.item V).

(** X14.  In version 0.1.0 the tick of a goroutine with a positive
    interval deletes exactly the entries of the table, those under keys
    equal to themselves, whose age in seconds, [now - lastAccess]
    computed in [int64], has reached the time-to-live in whole seconds,
    and keeps the others unchanged; the entries under keys that are not
    equal to themselves all stay.  A goroutine created with an interval
    that is zero or negative never gets a tick: nothing is ever swept,
    and nothing fails. *)
Theorem V010_tick_prunes_by_age s d now :
  V010.wf s →
  sweeper s = Spawned d →
  ∃ s', V010.tick now s = Ok tt s' ∧ V010.wf s' ∧
        sweeper s' = sweeper s ∧
        (0 < d →
         ∀ k,
           match V010.table s !! k with
           | Some it =>
               (V010.table s' !! k = None ↔
                wrap64 (now - V010.lastAccess it) >= ttl s) ∧
               (wrap64 (now - V010.lastAccess it) < ttl s →
                V010.table s' !! k = Some it)
           | None => V010.table s' !! k = None
           end) ∧
        V010.loose_table s' = V010.loose_table s ∧
        (d <= 0 → s' = s).
Proof.
  intros Hwf Hsw. unfold V010.tick. rewrite Hsw.
  destruct (decide (d <= 0)) as [Hd|Hd].
  - exists s. split_and!; try done. lia.
  - destruct (V010_sweep_exec s now Hwf)
      as (s' & Hrun & Hwf' & _ & Hsw' & Htab & Hl).
    exists s'. split_and!; try done; [congruence|].
    intros _ k. rewrite Htab.
    destruct (V010.table s !! k) as [it|] eqn:E.
    + split.
      * rewrite map_lookup_filter_None. split.
        -- intros [Hn|Hn]; [congruence|]. specialize (Hn it E). simpl in Hn. lia.
        -- intros Hge. right. intros it' Hit'. simpl.
           assert (it' = it) by congruence. subst. lia.
      * intros Hlt. apply map_lookup_filter_Some. by split.
    + apply map_lookup_filter_None. by left.
Qed.

(** X15.  In version 0.1.0 [Get] does not refresh [lastAccess]: for a
    key that can be hashed it returns the stored value, or the zero
    value for a key the index expression does not find, and leaves the
    state as it was.  So reading an entry does not keep it alive: an
    entry put at [t] under a key equal to itself and read afterwards is
    still deleted by a tick at [T] once [T - t] has reached the
    time-to-live. *)
Theorem V010_Get_does_not_refresh s d key v t T :
  V010.wf s →
  key_class key = Usable →
  sweeper s = Spawned d →
  0 < d →
  int64_range (T - t) →
  ttl s <= T - t →
  (∀ key', key_class key' ≠ Unhashable →
           ∃ r, V010.Get zero key' s = Ok r s) ∧
  ∃ s1 s2,
    V010.Put key v t s = Ok tt s1 ∧
    V010.Get zero key s1 = Ok v s1 ∧
    V010.tick T s1 = Ok tt s2 ∧
    V010.table s2 !! key = None ∧
    V010.Get zero key s2 = Ok zero s2.
Proof.
  intros Hwf Hc Hsw Hd Hfit Hage.
  assert (Hh : key_class key ≠ Unhashable) by congruence.
  split.
  { intros key' Hh'. eexists. by apply V010_Get_exec. }
  destruct (V010_Put_exec s key v t Hwf Hc)
    as (s1 & Hput & Hwf1 & Httl1 & Hsw1 & Htab1 & _).
  destruct (V010_sweep_exec s1 T Hwf1)
    as (s2 & Hrun & Hwf2 & _ & _ & Htab2 & _).
  assert (Hgone : V010.table s2 !! key = None).
  { rewrite Htab2. apply map_lookup_filter_None_2. right.
    intros it. rewrite Htab1, lookup_insert_eq. intros [= <-]. simpl.
    rewrite wrap64_id by done. lia. }
  exists s1, s2. split_and!; try done.
  - by rewrite V010_Get_exec, Htab1, lookup_insert_eq.
  - unfold V010.tick. rewrite Hsw1, Hsw. by rewrite decide_False by lia.
  - by rewrite V010_Get_exec, Hgone.
Qed.

(** X16.  Version 0.1.0 keeps the time-to-live in whole seconds: [New]
    divides it by [1_000_000_000] and drops the remainder.  An entry
    put at second [t] under a key equal to itself is deleted by a tick
    at second [T] exactly when [T - t] has reached that quotient; with
    a time-to-live between zero and one second the quotient is 0 and
    every tick that is not before the [Put] deletes the entry. *)
Theorem V010_ttl_is_truncated_to_seconds size ttl0 pruneInterval key v t T :
  key_class key = Usable →
  0 < pruneInterval →
  int64_range (T - t) →
  ∃ s0 s1 s2,
    V010.New (K:=K) (V:=V) size ttl0 pruneInterval = Ok tt s0 ∧
    ttl s0 = ttl0 `quot` 1000000000 ∧
    V010.Put key v t s0 = Ok tt s1 ∧
    V010.tick T s1 = Ok tt s2 ∧
    (V010.table s2 !! key = None ↔ ttl0 `quot` 1000000000 <= T - t) ∧
    (0 <= ttl0 < 1000000000 → t <= T → V010.Get zero key s2 = Ok zero s2).
Proof.
  intros Hc Hpi Hfit.
  assert (Hh : key_class key ≠ Unhashable) by congruence.
  destruct (V010_New_wf (K:=K) (V:=V) size ttl0 pruneInterval)
    as (s0 & Hnew & Hwf0 & _ & _ & Httl0 & Hsw0).
  destruct (V010_Put_exec s0 key v t Hwf0 Hc)
    as (s1 & Hput & Hwf1 & Httl1 & Hsw1 & Htab1 & _).
  destruct (V010_sweep_exec s1 T Hwf1)
    as (s2 & Hrun & Hwf2 & _ & _ & Htab2 & _).
  assert (Hiff : V010.table s2 !! key = None ↔
                 ttl0 `quot` 1000000000 <= T - t).
  { rewrite Htab2, map_lookup_filter_None, Htab1, lookup_insert_eq.
    rewrite Httl1, Httl0. split.
    - intros [Hn|Hn]; [done|]. specialize (Hn _ eq_refl). simpl in Hn.
      rewrite wrap64_id in Hn by done. lia.
    - intros Hle. right. intros it [= <-]. simpl.
      rewrite wrap64_id by done. lia. }
  exists s0, s1, s2. split_and!; try done.
  - unfold V010.tick. rewrite Hsw1, Hsw0. by rewrite decide_False by lia.
  - intros Hsub Hle. rewrite V010_Get_exec by done.
    assert (Hq : ttl0 `quot` 1000000000 = 0) by (apply Z.quot_small; lia).
    assert (Hnone : V010.table s2 !! key = None) by (apply Hiff; lia).
    by rewrite Hnone.
Qed.

End MoreV010.

(** * Concrete runs *)

(** Most maps of the package's tests have string keys; the runs below
    store strings, whose zero value is the empty string.  The runs with
    keys of interface type put an entry under a NaN. *)
Section Runs.

Local Abbreviation St := (State string (item string)).
Local Abbreviation StA := (State anykey (item string)).
Local Abbreviation Ev := (event (K:=string) (V:=string)).

Lemma two_puts_run :
  ∃ s : St, run_new "" 3 2000 3000 two_puts = Ok tt s ∧
            wf s ∧ sweeper s = Running ∧ ttl s = 2000 ∧
            table s !! "myString" = Some (Item "a b c" 2000) ∧
            table s !! "int_array" = Some (Item "1 2 3" 2005) ∧
            table s !! "other" = None.
Proof.
  eexists. split; [vm_compute; reflexivity|]. split.
  - apply (reachable_wf ""). exists 3%nat, 2000, 3000, two_puts.
    vm_compute. reflexivity.
  - split_and!; vm_compute; reflexivity.
Defined.

Lemma nan_puts_run :
  ∃ s : StA, run_new "" 3 2000 3000 nan_puts = Ok tt s ∧
             wf s ∧ sweeper s = Running ∧ ttl s = 2000 ∧
             table s !! KString "myString" = Some (Item "a b c" 2000) ∧
             loose_table s = [(KNaN, Item "n" 2005)].
Proof.
  eexists. split; [vm_compute; reflexivity|]. split.
  - apply (reachable_wf ""). exists 3%nat, 2000, 3000, nan_puts.
    vm_compute. reflexivity.
  - split_and!; vm_compute; reflexivity.
Defined.

(** A map created with the time-to-live [ttl0] and its goroutine
    started. *)
Lemma started_run ttl0 :
  ∃ s : St,
    run_new "" 3 ttl0 3000 [EStart] = Ok tt s ∧ wf s ∧
    sweeper s = Running ∧ ttl s = ttl0 ∧ table s = ∅.
Proof.
  eexists. split; [reflexivity|]. split; [|done].
  apply (reachable_wf ""). by exists 3%nat, ttl0, 3000, [EStart].
Defined.

(** C1 as stated fails: an entry under a NaN whose deadline has passed
    is still in the map after the tick. *)
Lemma sweep_keeps_expired_NaN_entry :
  ¬ (∀ (s s' : StA) now kv,
       wf s → sweeper s = Running → tick now s = Ok tt s' →
       kv ∈ physical s → expires kv.2 <= now → kv ∉ physical s').
Proof.
  intros Hclaim.
  destruct nan_puts_run as (s & _ & Hwf & Hsw & _ & _ & Hl).
  destruct (tick_exec s 3000 Hwf) as (s' & Htick & _ & _ & _ & _ & Hl').
  assert (Hin : (KNaN, Item "n" 2005) ∈ physical s).
  { apply physical_elem. right. rewrite Hl. by left. }
  assert (Hin' : (KNaN, Item "n" 2005) ∈ physical s').
  { apply physical_elem. right. rewrite Hl', Hl. by left. }
  apply (Hclaim s s' 3000 _ Hwf Hsw Htick Hin); [simpl; lia|done].
Qed.


(** C2 as stated fails: with the largest duration as time-to-live the
    deadline [Put] stores is not [now + ttl]. *)
Lemma Put_deadline_is_not_always_now_plus_ttl :
  ¬ (∀ (s s' : St) key v now it,
       wf s → int64_range now → int64_range (ttl s) →
       Put key v now s = Ok tt s' → table s' !! key = Some it →
       expires it = now + ttl s).
Proof.
  intros Hclaim.
  destruct (started_run int64_max) as (s & _ & Hwf & _ & Httl & _).
  destruct (Put_exec s "k" "v" 1000 Hwf) as (s' & Hput & _ & _ & _ & Htab & _).
  { done. }
  simpl in Htab.
  assert (Hk : table s' !! "k" = Some (Item "v" (add_unix_nano 1000 (ttl s)))).
  { by rewrite Htab, lookup_insert_eq. }
  assert (H1 : int64_range 1000).
  { unfold int64_range, int64_min, int64_max. lia. }
  assert (H2 : int64_range (ttl s)).
  { rewrite Httl. unfold int64_range, int64_min, int64_max. lia. }
  specialize (Hclaim s s' "k" "v" 1000 _ Hwf H1 H2 Hput Hk).
  simpl in Hclaim. rewrite Httl in Hclaim.
  vm_compute in Hclaim. discriminate.
Qed.


(** C3 as stated fails: the stored deadline is not always the time of
    the [Put] plus the configured time-to-live. *)
Lemma expires_is_not_always_put_time_plus_ttl :
  ¬ (∀ capacity ttl0 pruneInterval (es : list Ev) (s : St) k it t,
       run_new "" capacity ttl0 pruneInterval es = Ok tt s →
       table s !! k = Some it → last_put k es = Some t →
       expires it = t + ttl0).
Proof.
  intros Hclaim.
  assert (Hrun : ∃ s : St,
            run_new "" 3 int64_max 3000 [EPut "k" "v" 1000] = Ok tt s ∧
            table s !! "k" = Some (Item "v" (add_unix_nano 1000 int64_max))).
  { eexists. split; vm_compute; reflexivity. }
  destruct Hrun as (s & Hrun & Hk).
  specialize (Hclaim 3%nat int64_max 3000 _ s "k" _ 1000 Hrun Hk eq_refl).
  vm_compute in Hclaim. discriminate.
Qed.


(** C4 as stated fails: [Delete] of a NaN returns [false] although an
    entry under that key is in the map, and does not remove it. *)
Lemma Delete_does_not_find_NaN_entry :
  ¬ (∀ (s s' : StA) key b,
       wf s → Delete key s = Ok b s' →
       (b = true ↔ ∃ it, (key, it) ∈ physical s)).
Proof.
  intros Hclaim.
  destruct nan_puts_run as (s & _ & Hwf & _ & _ & _ & Hl).
  destruct (Delete_exec s KNaN Hwf) as (s' & Hdel & _ & _ & _ & _ & _ & _).
  { done. }
  rewrite table_not_usable in Hdel by done.
  apply Hclaim in Hdel as [_ Hdel]; [|done].
  discriminate Hdel. exists (Item "n" 2005).
  apply physical_elem. right. rewrite Hl. by left.
Qed.


(** The second scenario of the tests, with one of the two keys a NaN:
    both entries are past their deadline at 2005, no tick has come, and
    [Len] is 2. *)
Lemma Len_counts_physical_entries_witness :
  ∃ s : StA,
    run_new "" 3 2000 3000 nan_puts = Ok tt s ∧ wf s ∧
    Len s = Ok 2%nat s ∧
    table s !! KString "myString" = Some (Item "a b c" 2000) ∧
    expires (Item "a b c" 2000) <= 2005 ∧
    size (table s) = S (size (delete (KString "myString") (table s))).
Proof.
  destruct nan_puts_run as (s & Hrun & Hwf & _ & _ & Ha & Hl).
  destruct (Len_counts_physical_entries "" s Hwf) as (Hlen & Hsum & Hexp & _).
  assert (Hle : expires (Item "a b c" 2000) <= 2005) by (simpl; lia).
  destruct (Hexp (KString "myString") _ 2005 Ha Hle) as (Hsize & _).
  exists s. split_and!; try done.
  rewrite Hlen. do 2 f_equal.
  assert (Hr : returned (Len s) = Some 2%nat).
  { injection Hrun as <-. vm_compute. reflexivity. }
  rewrite Hlen in Hr. by injection Hr.
Defined.

(** A caller that writes through a pointer of the copy, here with
    [*snap["myString"] = *snap["int_array"]], changes what [Get] returns
    on the live map. *)
Lemma write_through_copy :
  ∃ (s : St) snap s1 s2,
    run_new "" 3 2000 3000 two_puts = Ok tt s ∧ wf s ∧
    Copy s = Ok snap s1 ∧
    table_of snap s1 !! "int_array" = Some (Item "1 2 3" 2005) ∧
    mutate snap (MutStore "myString" (Item "1 2 3" 2005)) s1 = Ok tt s2 ∧
    returned (Get "" "myString" s1) = Some ("a b c", true) ∧
    returned (Get "" "myString" s2) = Some ("1 2 3", true).
Proof.
  destruct two_puts_run as (s & Hrun & Hwf & _).
  exists s. injection Hrun as <-.
  eexists _, _, _. split; [vm_compute; reflexivity|]. split; [done|].
  split; [vm_compute; reflexivity|].
  split; [vm_compute; reflexivity|].
  split; [vm_compute; reflexivity|].
  split; vm_compute; reflexivity.
Qed.

(** C6 as stated fails: not every mutation of the returned copy leaves
    the results of [Get] on the live map alone. *)
Lemma Copy_not_independent :
  ¬ (∀ (s : St) snap s1 mu s2 key,
       wf s → Copy s = Ok snap s1 → mutate snap mu s1 = Ok tt s2 →
       returned (Get "" key s2) = returned (Get "" key s1)).
Proof.
  intros Hclaim.
  destruct write_through_copy
    as (s & snap & s1 & s2 & _ & Hwf & Hcopy & _ & Hmut & Hg1 & Hg2).
  specialize (Hclaim s snap s1 _ s2 "myString" Hwf Hcopy Hmut).
  rewrite Hg1, Hg2 in Hclaim. discriminate.
Qed.

Lemma Copy_is_shallow_witness :
  ∃ (s : St) snap s1 s2,
    run_new "" 3 2000 3000 two_puts = Ok tt s ∧ wf s ∧
    Copy s = Ok snap s1 ∧ table_of snap s1 = table s ∧
    mutate_all snap [MutDelete "myString"; MutClear] s1 = Ok tt s2 ∧
    returned (Get "" "myString" s2) = Some ("a b c", true).
Proof.
  destruct two_puts_run as (s & Hrun & Hwf & _ & _ & Ha & _).
  destruct (Copy_is_shallow "" s Hwf)
    as (snap & s1 & Hcopy & _ & _ & _ & Hsnap & _ & _ & _ & Hmap & _).
  destruct (Hmap [MutDelete "myString"; MutClear]) as (Hret & Hkeep).
  { by repeat constructor. }
  destruct Hret as (s2 & Hmut).
  { by repeat constructor. }
  destruct (Hkeep s2 Hmut) as (_ & _ & Hget).
  exists s, snap, s1, s2. split_and!; try done.
  by rewrite Hget, Get_exec, Ha.
Defined.

(** C7 as stated fails: [New] with a zero interval returns. *)
Lemma New_zero_interval_returns :
  ¬ (∀ capacity ttl0 pruneInterval,
       pruneInterval <= 0 →
       returned (New (K:=string) (V:=string) capacity ttl0 pruneInterval)
       = None).
Proof.
  intros Hclaim. specialize (Hclaim 3%nat 2000 0). simpl in Hclaim.
  by discriminate Hclaim.
Qed.

Lemma New_accepts_every_interval_witness :
  ∃ s0 : St,
    New 3 2000 0 = Ok tt s0 ∧ 0 <= 0 ∧
    sweeper_start s0 = Fault "non-positive interval for NewTicker" ∧
    ∃ s1, Put "myString" "a b c" 0 s0 = Ok tt s1.
Proof.
  destruct (New_accepts_every_interval (K:=string) (V:=string) 3 2000 0)
    as (s0 & Hnew & Hwf & _ & _ & _ & _ & _ & _ & Hneg).
  destruct (Hneg ltac:(lia)) as (Hstart & _).
  destruct (Put_exec s0 "myString" "a b c" 0 Hwf) as (s1 & Hput & _).
  { done. }
  exists s0. split_and!; try done. by exists s1.
Defined.

Lemma Close_stops_sweeper_then_clears_witness :
  ∃ s s' : StA,
    run_new "" 3 2000 3000 nan_puts = Ok tt s ∧ wf s ∧
    sweeper s ≠ Stopped ∧ (∀ d, sweeper s = Spawned d → 0 < d) ∧
    Close s = Ok tt s' ∧ physical s' = [] ∧
    sweeper s' = Stopped ∧ ticker s' = TickerStopped ∧
    tick 5000 s' = Ok tt s'.
Proof.
  destruct nan_puts_run as (s & Hrun & Hwf & Hsw & _).
  assert (Hns : sweeper s ≠ Stopped) by (rewrite Hsw; discriminate).
  assert (Hd : ∀ d, sweeper s = Spawned d → 0 < d).
  { intros d. rewrite Hsw. discriminate. }
  destruct (Close_stops_sweeper_then_clears "" s Hwf Hns Hd)
    as (s1 & s' & _ & _ & _ & _ & _ & _ & Hclose & _ & _ & Hphys & Hst & Htk
        & Hafter).
  destruct (Hafter [] s' eq_refl) as (_ & _ & Htick).
  exists s, s'. split_and!; done.
Defined.

(** C10 as stated fails: an entry under a NaN is physically in the map
    and [Get] does not return it. *)
Lemma Get_does_not_find_NaN_entry :
  ¬ (∀ (s : StA) key it,
       wf s → (key, it) ∈ physical s →
       Get "" key s = Ok (value it, true) s).
Proof.
  intros Hclaim.
  destruct nan_puts_run as (s & _ & Hwf & _ & _ & _ & Hl).
  assert (Hin : (KNaN, Item "n" 2005) ∈ physical s).
  { apply physical_elem. right. rewrite Hl. by left. }
  specialize (Hclaim s KNaN _ Hwf Hin).
  rewrite Get_exec, table_not_usable in Hclaim by done.
  discriminate.
Qed.


Lemma Delete_absent_key_unlocks_twice_witness :
  ∃ s0 : State anykey (V010.item string),
    V010.New 3 2000000000 3000000000 = Ok tt s0 ∧
    lock s0 = Unlocked ∧
    key_class KNaN ≠ Unhashable ∧
    V010.Delete KNaN s0 = Fault "sync: Unlock of unlocked RWMutex" ∧
    V010.Delete (KSlice [1; 2; 3]) s0 = unhashable.
Proof.
  destruct (V010_New_wf (K:=anykey) (V:=string) 3 2000000000 3000000000)
    as (s0 & Hnew & (Hl & _) & _).
  assert (Hh : key_class KNaN ≠ Unhashable) by done.
  assert (Hk : key_class KNaN = Usable →
               keyed (map_of (entries s0) s0) !! KNaN = None) by done.
  destruct (Delete_absent_key_unlocks_twice s0 KNaN Hl Hh Hk)
    as (_ & _ & Hfault & Hfresh & _).
  destruct (Hfresh 3%nat 2000000000 3000000000 (KSlice [1; 2; 3]))
    as (s0' & Hnew' & _ & Hun).
  rewrite Hnew in Hnew'. injection Hnew' as <-.
  exists s0. split_and!; try done. by apply Hun.
Defined.

End Runs.
